(** * react-async-orchestrator: the spawn combinators and the useAsyncFlow runner

    A shallow embedding of [src/useAsyncFlow.ts].

    - Part I models the JavaScript platform pieces the file relies on: thrown
      values, promises with their eventual fate on a logical clock, timers,
      [Promise.all] and [Promise.race], and a small monad for the body of an
      [async] function (return, throw, or wait forever on a promise that
      never settles).
    - Part II embeds [delay], [pTimeout] and the five helpers of [makeSpawn].
    - Part III embeds the hook: [executeRun] (cut at its single [await]),
      [cancel] and the effect clean-ups, as operations on the state held by
      [useState] and [useRef].
    - Part IV embeds the hook [useAsyncInspector]: [push] and [list] on the
      array held by its ref. *)

From stdpp Require Import base list gmap strings sorting.
From Stdlib Require Import ZArith Lia.

(* ================================================================== *)
(** * Part I: the platform *)
(* ================================================================== *)

(** What a JavaScript [throw] (or a promise rejection) can carry.  The
    source creates [new Error("aborted")] and [new Error("timeout")], reads
    an unassigned [let lastError] (which is [undefined]) and otherwise passes
    on whatever the caller's task threw. *)
Inductive thrown : Type :=
| Undefined
| ErrorObj (message : string)
| Value (code : Z).

Definition aborted_error : thrown := ErrorObj "aborted"%string.
Definition timeout_error : thrown := ErrorObj "timeout"%string.

(** Logical clock, in milliseconds. *)
Definition time : Type := nat.

(** A settled promise is either fulfilled with a value or rejected. *)
Inductive settled (A : Type) : Type :=
| Fulfilled (v : A)
| Rejected (e : thrown).
Arguments Fulfilled {A} v.
Arguments Rejected {A} e.

(** A promise is identified with its fate: the instant at which it settles
    and how, or [None] when it stays pending forever. *)
Definition promise (A : Type) : Type := option (time * settled A).

(** [Promise.reject(e)] and [Promise.resolve(v)] made at instant [t]. *)
Definition Promise_reject {A} (t : time) (e : thrown) : promise A :=
  Some (t, Rejected e).
Definition Promise_resolve {A} (t : time) (v : A) : promise A :=
  Some (t, Fulfilled v).

(** A promise does not settle before it is created. *)
Definition not_before {A} (t0 : time) (p : promise A) : promise A :=
  match p with
  | Some (t, o) => Some (Nat.max t0 t, o)
  | None => None
  end.

(** The earliest rejection among [ps]; among rejections at the same instant
    the one at the smallest index, whose reaction was registered first. *)
Fixpoint first_rejection {A} (ps : list (promise A)) : option (time * thrown) :=
  match ps with
  | [] => None
  | p :: rest =>
      let later := first_rejection rest in
      match p with
      | Some (t, Rejected e) =>
          match later with
          | Some (t', _) => if t' <? t then later else Some (t, e)
          | None => Some (t, e)
          end
      | _ => later
      end
  end.

(** When every promise of [ps] fulfils: the instant of the last fulfilment
    and the values in the order of [ps]. *)
Fixpoint all_fulfilled {A} (ps : list (promise A)) : option (time * list A) :=
  match ps with
  | [] => Some (0, [])
  | Some (t, Fulfilled v) :: rest =>
      match all_fulfilled rest with
      | Some (t', vs) => Some (Nat.max t t', v :: vs)
      | None => None
      end
  | _ => None
  end.

(** [Promise.all(ps)] called at instant [t0]: rejects as soon as one input
    rejects, with that reason; fulfils with the array of values once all
    inputs fulfilled; stays pending otherwise. *)
Definition Promise_all {A} (t0 : time) (ps : list (promise A)) : promise (list A) :=
  match first_rejection ps with
  | Some (t, e) => Some (Nat.max t0 t, Rejected e)
  | None =>
      match all_fulfilled ps with
      | Some (t, vs) => Some (Nat.max t0 t, Fulfilled vs)
      | None => None
      end
  end.

(** [Promise.race(ps)]: the fate of the first input to settle; an input
    earlier in the array wins a tie. *)
Fixpoint Promise_race {A} (ps : list (promise A)) : promise A :=
  match ps with
  | [] => None
  | p :: rest =>
      match p, Promise_race rest with
      | Some (t, o), Some (t', o') => if t' <? t then Some (t', o') else Some (t, o)
      | Some (t, o), None => Some (t, o)
      | None, later => later
      end
  end.

(** The longest delay a timer keeps: [2^31 - 1] milliseconds. *)
Definition TIMEOUT_MAX : Z := 2147483647.

(** What the timers of Node make of the delay handed to [setTimeout]: a
    delay below [1] or above [TIMEOUT_MAX] is replaced by [1]; any other is
    kept.  (A delay that is not a whole number of milliseconds is outside
    the model.) *)
Definition timer_delay (ms : nat) : nat :=
  if ((1 <=? Z.of_nat ms) && (Z.of_nat ms <=? TIMEOUT_MAX))%Z then ms else 1.
Arguments timer_delay : simpl never.

(** The body of an [async] function either returns, throws, or is suspended
    forever on a promise that never settles. *)
Inductive completion (A : Type) : Type :=
| Return (a : A)
| Throw (e : thrown)
| Hang.
Arguments Return {A} a.
Arguments Throw {A} e.
Arguments Hang {A}.

Section Runtime.

(** [T] is the result type of the caller's tasks (the [<T>] of the
    TypeScript signatures); [St] is whatever mutable state the caller's task
    functions close over. *)
Context {T St : Type}.

(** A task function [() => Promise<T>]: called in the caller's state at some
    instant, it returns a promise and leaves a new state. *)
Definition task : Type := St -> time -> promise T * St.

(** What the combinators do that can be observed from outside. *)
Inductive event : Type :=
| EvAborted (fired : bool)        (* a read of [signal.aborted] *)
| EvInvoke (i : nat)              (* the [i]-th task (or attempt) is called *)
| EvSettle (i : nat) (o : settled T)  (* an awaited task promise settled *)
| EvSetTimeout (h : nat) (ms : nat)   (* [setTimeout(_, ms)] returned handle [h] *)
| EvClearTimeout (h : nat).       (* [clearTimeout(h)] *)

(** The world a combinator runs in.  [fired_at] is the instant at which the
    run's AbortController is aborted ([None]: never); the combinators only
    ever read it. *)
Record runtime : Type := mkRuntime {
  now : time;
  fired_at : option time;
  timers : list (nat * time);     (* pending timers: handle, deadline *)
  next_timer : nat;
  closure : St;
  trace : list (time * event)
}.

Definition async (A : Type) : Type := runtime -> completion A * runtime.

#[export] Instance async_ret : MRet async := fun A a rt => (Return a, rt).

#[export] Instance async_bind : MBind async := fun A B k m rt =>
  match m rt with
  | (Return a, rt') => k a rt'
  | (Throw e, rt') => (Throw e, rt')
  | (Hang, rt') => (Hang, rt')
  end.

Definition throw {A} (e : thrown) : async A := fun rt => (Throw e, rt).

(** [try { body } catch (e) { handler e }] *)
Definition try_catch {A} (body : async A) (handler : thrown -> async A) : async A :=
  fun rt =>
    match body rt with
    | (Throw e, rt') => handler e rt'
    | other => other
    end.

(** [try { body } finally { cleanup }]: the clean-up runs on return and on
    throw, and the completion of the body is kept. *)
Definition try_finally {A} (body : async A) (cleanup : async unit) : async A :=
  fun rt =>
    match body rt with
    | (Hang, rt') => (Hang, rt')
    | (c, rt') =>
        match cleanup rt' with
        | (Return _, rt'') => (c, rt'')
        | (Throw e, rt'') => (Throw e, rt'')
        | (Hang, rt'') => (Hang, rt'')
        end
    end.

Definition log (ev : event) : async unit := fun rt =>
  (Return tt,
   mkRuntime (now rt) (fired_at rt) (timers rt) (next_timer rt) (closure rt)
             (trace rt ++ [(now rt, ev)])).

(** [signal.aborted] *)
Definition aborted (rt : runtime) : bool :=
  match fired_at rt with
  | Some t => t <=? now rt
  | None => false
  end.

Definition signal_aborted : async bool := fun rt =>
  (Return (aborted rt),
   mkRuntime (now rt) (fired_at rt) (timers rt) (next_timer rt) (closure rt)
             (trace rt ++ [(now rt, EvAborted (aborted rt))])).

(** Calling the [i]-th task function. *)
Definition invoke (i : nat) (f : task) : async (promise T) := fun rt =>
  let '(p, s') := f (closure rt) (now rt) in
  (Return (not_before (now rt) p),
   mkRuntime (now rt) (fired_at rt) (timers rt) (next_timer rt) s'
             (trace rt ++ [(now rt, EvInvoke i)])).

(** The clock moves to [t]; the timers that are due by then have run their
    callback and left the pending set. *)
Definition advance (t : time) (rt : runtime) : runtime :=
  let t' := Nat.max (now rt) t in
  mkRuntime t' (fired_at rt)
            (filter (fun tm => t' < tm.2) (timers rt))
            (next_timer rt) (closure rt) (trace rt).

(** [await p] *)
Definition await {A} (p : promise A) : async A := fun rt =>
  match p with
  | None => (Hang, rt)
  | Some (t, Fulfilled v) => (Return v, advance t rt)
  | Some (t, Rejected e) => (Throw e, advance t rt)
  end.

(** [await] on the promise of task [i], with the settlement recorded. *)
Definition await_task (i : nat) (p : promise T) : async T := fun rt =>
  match p with
  | None => (Hang, rt)
  | Some (t, o) =>
      match log (EvSettle i o) (advance t rt) with
      | (_, rt') =>
          match o with
          | Fulfilled v => (Return v, rt')
          | Rejected e => (Throw e, rt')
          end
      end
  end.

(** [setTimeout(callback, ms)]: a fresh handle, pending until the delay
    the platform makes of [ms] has passed.  The event keeps the [ms] that
    was asked for. *)
Definition setTimeout (ms : nat) : async nat := fun rt =>
  let h := next_timer rt in
  (Return h,
   mkRuntime (now rt) (fired_at rt)
             (timers rt ++ [(h, now rt + timer_delay ms)]) (S h)
             (closure rt) (trace rt ++ [(now rt, EvSetTimeout h ms)])).

(** [clearTimeout(h)]: a no-op when [h] already fired. *)
Definition clearTimeout (h : nat) : async unit := fun rt =>
  (Return tt,
   mkRuntime (now rt) (fired_at rt)
             (filter (fun tm => tm.1 <> h) (timers rt))
             (next_timer rt) (closure rt)
             (trace rt ++ [(now rt, EvClearTimeout h)])).

End Runtime.

(* ================================================================== *)
(** * Part II: [delay], [pTimeout] and the helpers of [makeSpawn] *)
(* ================================================================== *)

Section Spawn.

Context {T St : Type}.

Abbreviation task := (@task T St).
Abbreviation async := (@async T St).

Definition DEFAULT_RETRIES : Z := 3.
Definition DEFAULT_DELAY_MS : nat := 300.

Definition clock : async time := fun rt => (Return (now rt), rt).

(** [const delay = (ms) => new Promise((res) => setTimeout(res, ms))]: the
    promise fulfils when the timer runs [res]. *)
Definition delay (ms : nat) : async (promise unit) :=
  t ← clock;
  _ ← setTimeout ms;
  mret (Promise_resolve (t + timer_delay ms) tt).

(** [pTimeout(p, ms)]: a timer that rejects with [new Error("timeout")]
    when it runs is raced against [p]; the [finally] block clears the
    timer.  When [p] settles at the very instant the timer is due, [p],
    first in the array, wins the race. *)
Definition pTimeout (p : promise T) (ms : nat) : async T :=
  t ← clock;
  timer ← setTimeout ms;
  let timeout := Promise_reject (t + timer_delay ms) timeout_error in
  try_finally (await (Promise_race [p; timeout])) (clearTimeout timer).

(** [tasks.map((task) => signal.aborted ? Promise.reject(new Error("aborted")) : task())] *)
Fixpoint parallel_map (i : nat) (tasks : list task) : async (list (promise T)) :=
  match tasks with
  | [] => mret []
  | task :: rest =>
      fired ← signal_aborted;
      p ← (if fired : bool
           then t ← clock; mret (Promise_reject t aborted_error)
           else invoke i task);
      ps ← parallel_map (S i) rest;
      mret (p :: ps)
  end.

(** [parallel]: not an [async] function; it hands back the promise made by
    [Promise.all]. *)
Definition parallel (tasks : list task) : async (promise (list T)) :=
  ps ← parallel_map 0 tasks;
  t ← clock;
  mret (Promise_all t ps).

(** The [for (const task of tasks)] loop of [sequence]; [i] is the position
    of the head of [tasks] in the argument and [results] the array so far. *)
Fixpoint sequence_loop (i : nat) (tasks : list task) (results : list T)
  : async (list T) :=
  match tasks with
  | [] => mret results
  | task :: rest =>
      fired ← signal_aborted;
      if fired : bool then throw aborted_error
      else
        p ← invoke i task;
        v ← await_task i p;
        sequence_loop (S i) rest (results ++ [v])
  end.

Definition sequence (tasks : list task) : async (list T) :=
  sequence_loop 0 tasks [].

(** [tasks.map((task) => task())] *)
Fixpoint race_map (i : nat) (tasks : list task) : async (list (promise T)) :=
  match tasks with
  | [] => mret []
  | task :: rest =>
      p ← invoke i task;
      ps ← race_map (S i) rest;
      mret (p :: ps)
  end.

Definition race (tasks : list task) : async (promise T) :=
  ps ← race_map 0 tasks;
  mret (Promise_race ps).

(** The [for (let attempt = 0; attempt < retries; attempt++)] loop of
    [retry], for an integer [retries].  [remaining] counts the iterations
    still to come, that is [retries - attempt] (and [0] when [retries] is
    not positive); it is what the recursion descends on. *)
Fixpoint retry_loop (remaining : nat) (attempt : nat) (retries : Z)
    (delayMs : nat) (fn : task) (lastError : thrown) : async T :=
  match remaining with
  | O => throw lastError
  | S remaining' =>
      fired ← signal_aborted;
      if fired : bool then throw aborted_error
      else
        try_catch
          (p ← invoke attempt fn; await_task attempt p)
          (fun error =>
             _ ← (if (Z.of_nat attempt <? retries - 1)%Z
                  then d ← delay delayMs; await d
                  else mret tt);
             retry_loop remaining' (S attempt) retries delayMs fn error)
  end.

(** [retry(fn, retries = DEFAULT_RETRIES, delayMs = DEFAULT_DELAY_MS)]; an
    omitted argument is [None]. *)
Definition retry (fn : task) (retries : option Z) (delayMs : option nat) : async T :=
  let retries := default DEFAULT_RETRIES retries in
  let delayMs := default DEFAULT_DELAY_MS delayMs in
  retry_loop (Z.to_nat retries) 0 retries delayMs fn Undefined.

(** [timeout: (fn, ms) => pTimeout(fn(), ms)] *)
Definition timeout (fn : task) (ms : nat) : async T :=
  p ← invoke 0 fn;
  pTimeout p ms.

End Spawn.

(* ================================================================== *)
(** * Part III: the hook [useAsyncFlow] *)
(* ================================================================== *)

(** [UseAsyncFlowReturn<T>["status"]] *)
Inductive flow_status : Type := Idle | Running | Success | Error | Cancelled.

(** The options that matter to the runner.  A callback is opaque; what is
    recorded is whether it was supplied ([onError?.(err)] does nothing when
    it was not). *)
Record options : Type := mkOptions {
  onError : bool;
  onFinally : bool;
  dev : bool
}.

Section Hook.

Context {T : Type}.

(** What the hook does to the outside: state setters, the caller's
    callbacks, the console. *)
Inductive effect : Type :=
| SetStatus (s : flow_status)
| SetError (e : option thrown)
| SetResult (r : option T)
| OnError (err : thrown)
| OnFinally
| ConsoleLog (line : string)
| ConsoleError (line : string).

(** The cells of one hook instance.  [status], [result] and [error] are the
    three [useState] cells ([None] is [null]); [abortControllerRef] and
    [isMountedRef] are the two [useRef] cells.  AbortController objects live
    in [controllers], addressed by position; the entry is [signal.aborted]. *)
Record hook : Type := mkHook {
  status : flow_status;
  result : option T;
  error : option thrown;
  abortControllerRef : option nat;
  isMountedRef : bool;
  controllers : list bool;
  effects : list effect
}.

(** State of a freshly mounted component. *)
Definition useAsyncFlow_init : hook :=
  mkHook Idle None None None true [] [].

Definition emit (e : effect) (h : hook) : hook :=
  mkHook (status h) (result h) (error h) (abortControllerRef h) (isMountedRef h)
         (controllers h) (effects h ++ [e]).

Definition setStatus (s : flow_status) (h : hook) : hook :=
  emit (SetStatus s)
    (mkHook s (result h) (error h) (abortControllerRef h) (isMountedRef h)
            (controllers h) (effects h)).

Definition setResult (r : option T) (h : hook) : hook :=
  emit (SetResult r)
    (mkHook (status h) r (error h) (abortControllerRef h) (isMountedRef h)
            (controllers h) (effects h)).

Definition setError (e : option thrown) (h : hook) : hook :=
  emit (SetError e)
    (mkHook (status h) (result h) e (abortControllerRef h) (isMountedRef h)
            (controllers h) (effects h)).

Definition set_abortControllerRef (r : option nat) (h : hook) : hook :=
  mkHook (status h) (result h) (error h) r (isMountedRef h)
         (controllers h) (effects h).

Definition set_isMountedRef (b : bool) (h : hook) : hook :=
  mkHook (status h) (result h) (error h) (abortControllerRef h) b
         (controllers h) (effects h).

Definition set_controllers (cs : list bool) (h : hook) : hook :=
  mkHook (status h) (result h) (error h) (abortControllerRef h) (isMountedRef h)
         cs (effects h).

(** [controller.signal.aborted] *)
Definition signal_of (c : nat) (h : hook) : bool :=
  default false (controllers h !! c).

(** [controller.abort()] *)
Definition abort (c : nat) (h : hook) : hook :=
  set_controllers (<[c := true]> (controllers h)) h.

(** [abortControllerRef.current?.abort()] *)
Definition abort_current (h : hook) : hook :=
  match abortControllerRef h with
  | Some c => abort c h
  | None => h
  end.

(** [new AbortController()] *)
Definition new_AbortController (h : hook) : nat * hook :=
  (length (controllers h), set_controllers (controllers h ++ [false]) h).

Definition when (b : bool) (f : hook -> hook) (h : hook) : hook :=
  if b then f h else h.

(** [context.cancelled()] of the run that owns controller [c]:
    [abortController.signal.aborted || !isMountedRef.current] *)
Definition cancelled (c : nat) (h : hook) : bool :=
  signal_of c h || negb (isMountedRef h).

(** [executeRun], first half: everything up to the [await] of the caller's
    [run(context)].  Returns the controller of the new run. *)
Definition executeRun_start (opts : options) (h : hook) : nat * hook :=
  let h := abort_current h in
  let '(abortController, h) := new_AbortController h in
  let h := set_abortControllerRef (Some abortController) h in
  let h := setStatus Running h in
  let h := setError None h in
  let h := setResult None h in
  let h := when (dev opts) (emit (ConsoleLog "[RAO] start")) h in
  (abortController, h).

(** The [finally] block of [executeRun]. *)
Definition executeRun_finally (opts : options) (abortController : nat) (h : hook) : hook :=
  let h := when (onFinally opts) (emit OnFinally) h in
  if decide (abortControllerRef h = Some abortController)
  then set_abortControllerRef None h
  else h.

(** [executeRun], second half: the caller's promise has settled with [o];
    the value the run's own promise resolves with is returned ([None] is
    [undefined]). *)
Definition executeRun_settle (opts : options) (abortController : nat)
    (o : settled T) (h : hook) : option T * hook :=
  let '(ret, h) :=
    match o with
    | Fulfilled resultValue =>
        if cancelled abortController h then
          let h := setStatus Cancelled h in
          let h := when (dev opts) (emit (ConsoleLog "[RAO] cancelled")) h in
          (None, h)
        else
          let h := setStatus Success h in
          let h := setResult (Some resultValue) h in
          let h := when (dev opts) (emit (ConsoleLog "[RAO] success")) h in
          (Some resultValue, h)
    | Rejected err =>
        if cancelled abortController h then
          let h := setStatus Cancelled h in
          (None, h)
        else
          let h := setStatus Error h in
          let h := setError (Some err) h in
          let h := when (onError opts) (emit (OnError err)) h in
          let h := when (dev opts) (emit (ConsoleError "[RAO] error")) h in
          (None, h)
    end in
  (ret, executeRun_finally opts abortController h).

(** [cancel] *)
Definition cancel (h : hook) : hook :=
  let h := abort_current h in
  let h := set_abortControllerRef None h in
  setStatus Cancelled h.

(** The mount effect and its clean-up. *)
Definition mount (h : hook) : hook := set_isMountedRef true h.

Definition unmount (h : hook) : hook :=
  let h := set_isMountedRef false h in
  let h := abort_current h in
  set_abortControllerRef None h.

(** The clean-up of the auto-run effect: [abortControllerRef.current?.abort()]. *)
Definition deps_cleanup (h : hook) : hook := abort_current h.

(** One hook instance over time.  Beside the cells, the set of runs whose
    caller promise has not settled yet is tracked: a run settles once, and
    only after it was started. *)
Inductive flow_step (opts : options) : hook * gset nat -> hook * gset nat -> Prop :=
| step_run h fl :
    flow_step opts (h, fl)
      ((executeRun_start opts h).2, {[ (executeRun_start opts h).1 ]} ∪ fl)
| step_settle h fl c o :
    c ∈ fl ->
    flow_step opts (h, fl) ((executeRun_settle opts c o h).2, fl ∖ {[ c ]})
| step_cancel h fl :
    flow_step opts (h, fl) (cancel h, fl)
| step_mount h fl :
    flow_step opts (h, fl) (mount h, fl)
| step_unmount h fl :
    flow_step opts (h, fl) (unmount h, fl)
| step_deps_cleanup h fl :
    flow_step opts (h, fl) (deps_cleanup h, fl).

Definition reachable (opts : options) (h : hook) (fl : gset nat) : Prop :=
  rtc (flow_step opts) (useAsyncFlow_init, ∅) (h, fl).

End Hook.

(* ================================================================== *)
(** * Part IV: the hook [useAsyncInspector] *)
(* ================================================================== *)

(** Arrays are objects: they live in a heap, addressed by position.  The
    array made by [useRef<string[]>([])] sits at [ref_current]; it is
    mutated in place and the ref is never assigned again. *)
Record inspector : Type := mkInspector {
  ref_current : nat;
  arrays : list (list string)
}.

Definition useAsyncInspector_init : inspector := mkInspector 0 [[]].

(** The contents of [ref.current]. *)
Definition buffer (ins : inspector) : list string :=
  default [] (arrays ins !! ref_current ins).

(** [a.push(s); if (a.length > 100) a.shift()] on the contents of one
    array. *)
Definition push_shift (s : string) (a : list string) : list string :=
  let a := a ++ [s] in
  if 100 <? length a then tail a else a.

(** [push(s)] *)
Definition inspector_push (s : string) (ins : inspector) : inspector :=
  mkInspector (ref_current ins)
              (alter (push_shift s) (ref_current ins) (arrays ins)).

(** [list()]: the spread [[...ref.current]] makes a new array with the same
    contents; its address is returned. *)
Definition inspector_list (ins : inspector) : nat * inspector :=
  (length (arrays ins),
   mkInspector (ref_current ins) (arrays ins ++ [buffer ins])).

(** A caller of the inspector over time. *)
Inductive inspector_call : Type :=
| CallPush (s : string)
| CallList.

Definition inspector_step (ins : inspector) (c : inspector_call) : inspector :=
  match c with
  | CallPush s => inspector_push s ins
  | CallList => (inspector_list ins).2
  end.

Definition inspector_run (calls : list inspector_call) (ins : inspector) : inspector :=
  foldl inspector_step ins calls.

(** The strings pushed by [calls], in order. *)
Definition pushed (calls : list inspector_call) : list string :=
  omap (fun c => match c with CallPush s => Some s | CallList => None end) calls.

(** The ref points at an allocated array. *)
Definition inspector_wf (ins : inspector) : Prop :=
  ref_current ins < length (arrays ins).

(* ================================================================== *)
(** * Reading a trace *)
(* ================================================================== *)

Section Observations.

Context {T St : Type}.

Abbreviation event := (@event T).
Abbreviation task := (@task T St).

(** The positions of the tasks that were called, in call order. *)
Definition invoked (es : list event) : list nat :=
  omap (fun e => match e with EvInvoke i => Some i | _ => None end) es.

(** The settlements that were awaited, in order. *)
Definition settlements (es : list event) : list (nat * settled T) :=
  omap (fun e => match e with EvSettle i o => Some (i, o) | _ => None end) es.

(** The durations of the timers that were set, in order. *)
Definition timer_durations (es : list event) : list nat :=
  omap (fun e => match e with EvSetTimeout _ ms => Some ms | _ => None end) es.

(** A fired token seen at a check, or a task promise that rejected. *)
Definition is_failure (e : event) : bool :=
  match e with
  | EvAborted true => true
  | EvSettle _ (Rejected _) => true
  | _ => false
  end.

(** What a failure makes the combinator throw. *)
Definition failure_reason (e : event) : thrown :=
  match e with
  | EvSettle _ (Rejected err) => err
  | _ => aborted_error
  end.

(** Starts and settlements only. *)
Inductive phase : Type := Start (i : nat) | Settle (i : nat).

Definition phases (es : list event) : list phase :=
  omap (fun e => match e with
                 | EvInvoke i => Some (Start i)
                 | EvSettle i _ => Some (Settle i)
                 | _ => None
                 end) es.

(** Tasks [i], [i+1], ... run one at a time: each start is followed by the
    settlement of the same task before the next task starts; the last task
    started may still be pending. *)
Inductive one_at_a_time : nat -> list phase -> Prop :=
| oat_none i : one_at_a_time i []
| oat_pending i : one_at_a_time i [Start i]
| oat_next i ps :
    one_at_a_time (S i) ps -> one_at_a_time i (Start i :: Settle i :: ps).

(** Every call of a task comes right after a check, made at the same
    instant, that found the token not fired. *)
Definition checked_before_each_call (evs : list (time * event)) : Prop :=
  forall pre t i post, evs = pre ++ (t, EvInvoke i) :: post ->
    exists pre', pre = pre' ++ [(t, EvAborted false)].

(** Attempt [j + 1] is made when the timer set at the failure of attempt
    [j] is due: [setTimeout] is called with [d] at the failure, and the next
    check and call happen once the delay the platform makes of [d] has
    passed. *)
Definition fixed_delay_between_attempts (d : nat) (evs : list (time * event)) : Prop :=
  forall pre t2 j post, evs = pre ++ (t2, EvInvoke (S j)) :: post ->
    exists pre' t1 e h,
      pre = pre' ++ [(t1, EvSettle j (Rejected e)); (t1, EvSetTimeout h d);
                     (t2, EvAborted false)] /\
      t2 = t1 + timer_delay d.

(** The promises obtained by calling [tasks] one after the other at instant
    [t], starting from the caller's state [s]. *)
Fixpoint started (tasks : list task) (s : St) (t : time) : list (promise T) :=
  match tasks with
  | [] => []
  | f :: rest => not_before t (f s t).1 :: started rest (f s t).2 t
  end.

End Observations.

(** [p] fulfils with [v]. *)
Definition is_fulfilled {A} (p : promise A) (v : A) : Prop :=
  exists t, p = Some (t, Fulfilled v).

(** The promise at position [i] of [ps] rejects at instant [t] with [e]. *)
Definition rejects_at {A} (ps : list (promise A)) (i : nat) (t : time) (e : thrown) : Prop :=
  ps !! i = Some (Some (t, Rejected e)).

(** How an [await] on a settled promise completes. *)
Definition completion_of {A} (o : settled A) : completion A :=
  match o with
  | Fulfilled v => Return v
  | Rejected e => Throw e
  end.

(** The outcome of [p] when it has settled by instant [t]. *)
Definition settled_by {A} (t : time) (p : promise A) : option (settled A) :=
  match p with
  | Some (t', o) => if t' <=? t then Some o else None
  | None => None
  end.

(** The calls of the caller's callbacks among the effects, in order. *)
Definition callbacks {T} (es : list (@effect T)) : list (@effect T) :=
  omap (fun e => match e with
                 | OnError _ => Some e
                 | OnFinally => Some e
                 | _ => None
                 end) es.

(** The invariant the data model states for the three state cells. *)
Definition consistent {T} (h : @hook T) : Prop :=
  (result h <> None -> status h = Success) /\
  (error h <> None -> status h = Error).

(** The promise at position [i] of [ps] settles at instant [t] as [o]. *)
Definition settles_at {A} (ps : list (promise A)) (i : nat) (t : time)
    (o : settled A) : Prop :=
  ps !! i = Some (Some (t, o)).

(** A task whose promise fulfils, whenever and in whatever state it is
    called. *)
Definition always_fulfils {T St} (f : @task T St) : Prop :=
  forall s t, exists t' v, (f s t).1 = Some (t', Fulfilled v).

(** The cells of a hook instance without the record of its effects. *)
Definition cells {T} (h : @hook T) :
    flow_status * option T * option thrown * option nat * bool * list bool :=
  (status h, result h, error h, abortControllerRef h, isMountedRef h, controllers h).

(** The calls of the three state setters among the effects, in order. *)
Definition setters {T} (es : list (@effect T)) : list (@effect T) :=
  omap (fun e => match e with
                 | SetStatus _ => Some e
                 | SetError _ => Some e
                 | SetResult _ => Some e
                 | _ => None
                 end) es.

(** A hook instance, with its runs in flight, on which nothing was done yet
    if its status is still ['idle']. *)
Definition untouched {T} (x : @hook T * gset nat) : Prop :=
  status x.1 = Idle ->
  controllers x.1 = [] /\ x.2 = ∅ /\ result x.1 = None /\ error x.1 = None /\
  effects x.1 = [].

(* ================================================================== *)
(** * Calls made one after the other *)
(* ================================================================== *)

(** [sequence] and [retry] call task functions one after the other.  The
    definitions below follow the caller's functions themselves, without the
    combinators: which promise each call returns when it is made in the
    state the call before left, at the instant the promise before settled.
    The theorems on [sequence] and [retry] then say that the combinators
    make exactly these calls and complete as these promises do. *)

Section Chains.

Context {T St : Type}.

Abbreviation event := (@event T).
Abbreviation task := (@task T St).

(** Whether a token that fires at [fired] ([None]: never) is fired at
    instant [t]. *)
Definition fired_by (fired : option time) (t : time) : bool :=
  match fired with
  | Some f => f <=? t
  | None => false
  end.

(** The tasks of [tasks] called in input order from state [s] and instant
    [t]: an entry is the instant of a call and the promise the task
    returned; the next task is called, in the state this call left, at the
    instant this promise fulfils.  The list stops after the first promise
    that does not fulfil. *)
Fixpoint chained (tasks : list task) (s : St) (t : time)
  : list (time * promise T) :=
  match tasks with
  | [] => []
  | f :: rest =>
      let p := not_before t (f s t).1 in
      (t, p) :: match p with
                | Some (t', Fulfilled _) => chained rest (f s t).2 t'
                | _ => []
                end
  end.

(** Up to [n] calls of [fn] from state [s] and instant [t]: an entry is the
    instant of a call and the promise [fn] returned; the next call is made,
    in the state this call left, once this promise has rejected and the
    timer of [setTimeout(_, d)] set at that instant has run.  The list stops
    after the first promise that does not reject. *)
Fixpoint attempts (n : nat) (fn : task) (d : nat) (s : St) (t : time)
  : list (time * promise T) :=
  match n with
  | O => []
  | S n' =>
      let p := not_before t (fn s t).1 in
      (t, p) :: match p with
                | Some (t', Rejected _) =>
                    attempts n' fn d (fn s t).2 (t' + timer_delay d)
                | _ => []
                end
  end.

(** The calls of [cs] that come before the token fires: the list is cut at
    the first call whose instant finds the token fired. *)
Fixpoint called (fired : option time) (cs : list (time * promise T))
  : list (time * promise T) :=
  match cs with
  | [] => []
  | c :: rest => if fired_by fired c.1 then [] else c :: called fired rest
  end.

(** The calls in a trace, each with its instant and its position. *)
Definition timed_calls (evs : list (time * event)) : list (time * nat) :=
  omap (fun x => match x.2 with EvInvoke i => Some (x.1, i) | _ => None end) evs.

(** The settlements awaited in a trace, each with the position of the call,
    its instant and the outcome. *)
Definition timed_settlements (evs : list (time * event))
  : list (nat * time * settled T) :=
  omap (fun x => match x.2 with EvSettle i o => Some (i, x.1, o) | _ => None end) evs.

(** The calls of [cs], numbered from [i]. *)
Fixpoint calls_of (i : nat) (cs : list (time * promise T)) : list (time * nat) :=
  match cs with
  | [] => []
  | c :: rest => (c.1, i) :: calls_of (S i) rest
  end.

(** The settlements of the promises of [cs], numbered from [i]; a promise
    that stays pending has none. *)
Fixpoint settlements_of (i : nat) (cs : list (time * promise T))
  : list (nat * time * settled T) :=
  match cs with
  | [] => []
  | c :: rest =>
      match c.2 with
      | Some (t', o) => (i, t', o) :: settlements_of (S i) rest
      | None => settlements_of (S i) rest
      end
  end.

(** The completion [c] of [sequence] is the one the calls [cs] lead to when
    the token fires at [fired]: it returns [vs] exactly when every call was
    made before the token fired and every promise fulfilled, with the values
    [vs], in the order of the calls; it is suspended exactly when every call
    was made and the last promise stays pending; it throws exactly when the
    token was found fired at the instant of a call (and then
    [Error("aborted")]), or every call was made and the last promise
    rejected (and then with its reason). *)
Definition sequence_ends (fired : option time) (cs : list (time * promise T))
    (c : completion (list T)) : Prop :=
  (forall vs, c = Return vs <->
     called fired cs = cs /\
     Forall2 (fun x v => exists t', x.2 = Some (t', Fulfilled v)) cs vs) /\
  (c = Hang <-> called fired cs = cs /\ exists t, last cs = Some (t, None)) /\
  (forall e, c = Throw e <->
     (called fired cs <> cs /\ e = aborted_error) \/
     (called fired cs = cs /\
      exists t t', last cs = Some (t, Some (t', Rejected e)))).

(** The completion [c] of [retry] is the one the attempts [cs] lead to when
    the token fires at [fired] and [lastError] is in hand at the start: it
    returns [v] exactly when every attempt was made before the token fired
    and the last one fulfilled with [v]; it is suspended exactly when every
    attempt was made and the last promise stays pending; it throws exactly
    when the token was found fired at the instant of an attempt (and then
    [Error("aborted")]), or every attempt was made and the last one rejected
    (and then with its reason), or there was no attempt to make (and then
    [lastError]). *)
Definition retry_ends (fired : option time) (cs : list (time * promise T))
    (lastError : thrown) (c : completion T) : Prop :=
  (forall v, c = Return v <->
     called fired cs = cs /\
     exists t t', last cs = Some (t, Some (t', Fulfilled v))) /\
  (c = Hang <-> called fired cs = cs /\ exists t, last cs = Some (t, None)) /\
  (forall e, c = Throw e <->
     (called fired cs <> cs /\ e = aborted_error) \/
     (called fired cs = cs /\
      ((cs = [] /\ e = lastError) \/
       exists t t', last cs = Some (t, Some (t', Rejected e))))).

End Chains.

Arguments fired_by : simpl never.

(* ================================================================== *)
(** * The shape of a run *)
(* ================================================================== *)

(** The loops of [sequence] and [retry] are followed once and for all: the
    relations below list, iteration by iteration, which events a run leaves
    and how it completes.  The properties of the combinators are then read
    off these relations. *)

Section Shapes.

Context {T : Type}.

Abbreviation event := (@event T).

Definition extend_results {A} (results : list A) (c : completion (list A))
  : completion (list A) :=
  match c with
  | Return vs => Return (results ++ vs)
  | Throw e => Throw e
  | Hang => Hang
  end.

(** [sequence_run t i n evs c]: from instant [t], with [n] tasks left of
    which the first is at position [i], the loop leaves [evs] and completes
    as [c] (carrying the values pushed from here on). *)
Inductive sequence_run :
  time -> nat -> nat -> list (time * event) -> completion (list T) -> Prop :=
| sr_done t i :
    sequence_run t i 0 [] (Return [])
| sr_fired t i n :
    sequence_run t i (S n) [(t, EvAborted true)] (Throw aborted_error)
| sr_pending t i n :
    sequence_run t i (S n) [(t, EvAborted false); (t, EvInvoke i)] Hang
| sr_rejected t t' i n e :
    t <= t' ->
    sequence_run t i (S n)
      [(t, EvAborted false); (t, EvInvoke i); (t', EvSettle i (Rejected e))]
      (Throw e)
| sr_fulfilled t t' i n v evs c :
    t <= t' ->
    sequence_run t' (S i) n evs c ->
    sequence_run t i (S n)
      ((t, EvAborted false) :: (t, EvInvoke i) :: (t', EvSettle i (Fulfilled v)) :: evs)
      (extend_results [v] c).

(** [retry_run d t a r lastError evs c]: from instant [t], about to make
    attempt [a] with [r] iterations left and [lastError] in hand, the loop
    leaves [evs] and completes as [c]. *)
Inductive retry_run (d : nat) :
  time -> nat -> nat -> thrown -> list (time * event) -> completion T -> Prop :=
| rr_exhausted t a lastError :
    retry_run d t a 0 lastError [] (Throw lastError)
| rr_fired t a r lastError :
    retry_run d t a (S r) lastError [(t, EvAborted true)] (Throw aborted_error)
| rr_pending t a r lastError :
    retry_run d t a (S r) lastError [(t, EvAborted false); (t, EvInvoke a)] Hang
| rr_success t t' a r lastError v :
    t <= t' ->
    retry_run d t a (S r) lastError
      [(t, EvAborted false); (t, EvInvoke a); (t', EvSettle a (Fulfilled v))]
      (Return v)
| rr_last t t' a lastError e :
    t <= t' ->
    retry_run d t a 1 lastError
      [(t, EvAborted false); (t, EvInvoke a); (t', EvSettle a (Rejected e))]
      (Throw e)
| rr_again t t' t'' a r lastError e h evs c :
    t <= t' -> t'' = t' + timer_delay d ->
    retry_run d t'' (S a) (S r) e evs c ->
    retry_run d t a (S (S r)) lastError
      ((t, EvAborted false) :: (t, EvInvoke a) :: (t', EvSettle a (Rejected e))
         :: (t', EvSetTimeout h d) :: evs)
      c.

(** What holds of every state a hook instance can be in, [fl] being the
    runs in flight: the ref and the runs in flight point at allocated
    controllers; a run in flight whose token is not fired is the current
    one; and while there is such a run nothing has been recorded since its
    start. *)
Definition flow_inv (h : @hook T) (fl : gset nat) : Prop :=
  (forall c, abortControllerRef h = Some c -> c < length (controllers h)) /\
  (forall c, c ∈ fl -> c < length (controllers h)) /\
  (forall c, c ∈ fl -> signal_of c h = false -> abortControllerRef h = Some c) /\
  (forall c, c ∈ fl -> signal_of c h = false -> result h = None /\ error h = None).

End Shapes.

(* ================================================================== *)
(** * Sample tasks and states *)
(* ================================================================== *)

Module Samples.

(** Tasks over [T = nat] whose closure is a call counter. *)
Definition resolves (after : nat) (v : nat) : @task nat nat :=
  fun calls t => (Promise_resolve (t + after) v, S calls).

Definition rejects (after : nat) (code : Z) : @task nat nat :=
  fun calls t => (Promise_reject (t + after) (Value code), S calls).

Definition neverResolves : @task nat nat :=
  fun calls t => (None, S calls).

(** Fails on its first [k] calls (with the call number as the error), then
    succeeds. *)
Definition failsThenSucceeds (k : nat) (after : nat) : @task nat nat :=
  fun calls t =>
    if calls <? k then (Promise_reject (t + after) (Value (Z.of_nat calls)), S calls)
    else (Promise_resolve (t + after) calls, S calls).

(** A runtime at instant 0 whose token fires at [fired]. *)
Definition fresh (fired : option time) : @runtime nat nat :=
  mkRuntime 0 fired [] 0 0 [].

Definition all_callbacks : options := mkOptions true true false.

(** A mounted component whose first run is in flight. *)
Definition running_hook : @hook nat :=
  (executeRun_start all_callbacks useAsyncFlow_init).2.

(** A component whose first run succeeded with 42. *)
Definition succeeded_hook : @hook nat :=
  (executeRun_settle all_callbacks 0 (Fulfilled 42) running_hook).2.

(** A component that was unmounted and whose [run] is then called. *)
Definition run_after_unmount : @hook nat :=
  (executeRun_start all_callbacks (unmount useAsyncFlow_init)).2.

End Samples.

(* ================================================================== *)
(** * Timers *)
(* ================================================================== *)

(** A delay from [1] to [2^31 - 1] is kept. *)
Lemma timer_delay_kept (ms : nat) :
  (1 <= Z.of_nat ms <= TIMEOUT_MAX)%Z -> timer_delay ms = ms.
Proof.
  intros [H1 H2]. unfold timer_delay.
  destruct (Z.leb_spec 1 (Z.of_nat ms)); [|lia].
  destruct (Z.leb_spec (Z.of_nat ms) TIMEOUT_MAX); [reflexivity|lia].
Qed.

(** Any other delay is replaced by [1]. *)
Lemma timer_delay_replaced (ms : nat) :
  (Z.of_nat ms < 1 \/ TIMEOUT_MAX < Z.of_nat ms)%Z -> timer_delay ms = 1.
Proof.
  intros H. unfold timer_delay.
  destruct (Z.leb_spec 1 (Z.of_nat ms)); [|reflexivity].
  destruct (Z.leb_spec (Z.of_nat ms) TIMEOUT_MAX); [lia|reflexivity].
Qed.

(** The delay of a timer is at least [1] and never above [2^31 - 1]. *)
Lemma timer_delay_range (ms : nat) :
  (1 <= Z.of_nat (timer_delay ms) <= TIMEOUT_MAX)%Z.
Proof.
  unfold timer_delay, TIMEOUT_MAX.
  destruct (Z.leb_spec 1 (Z.of_nat ms)); [|simpl; lia].
  destruct (Z.leb_spec (Z.of_nat ms) 2147483647); simpl; lia.
Qed.

(* ================================================================== *)
(** * [sequence] *)
(* ================================================================== *)

Section SequenceProofs.

Context {T St : Type}.
Implicit Types (rt : @runtime T St) (tasks : list (@task T St)).

Lemma extend_results_nil {A} (c : completion (list A)) : extend_results [] c = c.
Proof. destruct c; reflexivity. Qed.

Lemma extend_results_app {A} (xs ys : list A) c :
  extend_results xs (extend_results ys c) = extend_results (xs ++ ys) c.
Proof. destruct c; simpl; rewrite ?app_assoc; reflexivity. Qed.

(** The loop of [sequence] follows [sequence_run]. *)
Lemma sequence_loop_run tasks : forall i results rt,
  exists evs c,
    (sequence_loop i tasks results rt).1 = extend_results results c /\
    trace (sequence_loop i tasks results rt).2 = trace rt ++ evs /\
    sequence_run (now rt) i (length tasks) evs c.
Proof.
  induction tasks as [|f rest IH]; intros i results rt.
  - exists [], (Return []). simpl. rewrite !app_nil_r. repeat split. constructor.
  - simpl. unfold mbind, async_bind. simpl.
    destruct (aborted rt) eqn:Hab.
    + exists [(now rt, EvAborted true)], (Throw aborted_error). simpl.
      repeat split. constructor.
    + unfold invoke. simpl.
      destruct (f (closure rt) (now rt)) as [[[t [v|e]]|] s'] eqn:Hf; simpl.
      * match goal with |- context [sequence_loop _ _ _ ?r] =>
          destruct (IH (S i) (results ++ [v]) r) as (evs & c & Hc & Htr & Hrun) end.
        eexists (_ :: _ :: _ :: evs), (extend_results [v] c).
        rewrite Hc, Htr. simpl. rewrite extend_results_app. split; [reflexivity|].
        split; [rewrite <- !app_assoc; reflexivity|].
        simpl in Hrun. apply sr_fulfilled; [lia|exact Hrun].
      * eexists [_; _; _], (Throw e). simpl. split; [reflexivity|].
        split; [rewrite <- !app_assoc; reflexivity|].
        apply sr_rejected. lia.
      * eexists [_; _], Hang. simpl. split; [reflexivity|].
        split; [rewrite <- !app_assoc; reflexivity|].
        constructor.
Qed.

Lemma sequence_run_one_at_a_time t i n evs (c : completion (list T)) :
  sequence_run t i n evs c -> one_at_a_time i (phases evs.*2).
Proof.
  intros Hrun; induction Hrun; csimpl; repeat constructor. exact IHHrun.
Qed.

Lemma sequence_run_invoked t i n evs (c : completion (list T)) :
  sequence_run t i n evs c -> exists k, k <= n /\ invoked evs.*2 = seq i k.
Proof.
  intros Hrun; induction Hrun; csimpl.
  - exists 0. split; [lia|reflexivity].
  - exists 0. split; [lia|reflexivity].
  - exists 1. split; [lia|reflexivity].
  - exists 1. split; [lia|reflexivity].
  - destruct IHHrun as (k & Hk & Hinv). exists (S k). split; [lia|].
    csimpl. rewrite Hinv. reflexivity.
Qed.

Lemma sequence_run_results t i n evs (c : completion (list T)) vs :
  sequence_run t i n evs c -> c = Return vs ->
  settlements evs.*2 = imap (fun j v => (i + j, Fulfilled v)) vs /\ length vs = n.
Proof.
  intros Hrun. revert vs. induction Hrun; intros vs Hc; try discriminate.
  - injection Hc as <-. split; reflexivity.
  - destruct c as [ws| |]; try discriminate. csimpl in Hc. injection Hc as <-.
    destruct (IHHrun ws eq_refl) as [Hs Hl]. csimpl. rewrite Hs. split; [|lia].
    f_equal; [f_equal; lia|].
    apply imap_ext. intros j w _. csimpl. f_equal. lia.
Qed.

Lemma sequence_run_failure_last t i n evs (c : completion (list T)) :
  sequence_run t i n evs c ->
  forall k x, evs.*2 !! k = Some x -> is_failure x = true ->
    S k = length evs /\ c = Throw (failure_reason x).
Proof.
  intros Hrun; induction Hrun; intros k x Hk Hx.
  - destruct k; discriminate.
  - destruct k as [|k]; [|destruct k; discriminate].
    injection Hk as <-. split; reflexivity.
  - destruct k as [|[|k]]; try (injection Hk as <-; discriminate).
    destruct k; discriminate.
  - destruct k as [|[|[|k]]]; try (injection Hk as <-; try discriminate).
    + split; reflexivity.
    + destruct k; discriminate.
  - destruct k as [|[|[|k]]]; try (injection Hk as <-; discriminate).
    csimpl in Hk. destruct (IHHrun k x Hk Hx) as [Hlen ->].
    csimpl. split; [lia|reflexivity].
Qed.

Lemma sequence_run_throw t i n evs (c : completion (list T)) e :
  sequence_run t i n evs c -> c = Throw e ->
  exists x, last evs.*2 = Some x /\ is_failure x = true /\ e = failure_reason x.
Proof.
  intros Hrun. revert e. induction Hrun; intros err Hc; try discriminate.
  - injection Hc as <-. eexists. repeat split.
  - injection Hc as <-. eexists. repeat split.
  - destruct c; try discriminate. csimpl in Hc. injection Hc as <-.
    destruct (IHHrun e eq_refl) as (x & Hl & Hf & He).
    exists x. repeat split; auto.
    csimpl. destruct (evs.*2) as [|e0 l] eqn:E; [discriminate|].
    rewrite !last_cons_cons. exact Hl.
Qed.

Lemma sequence_run_chronological t i n evs (c : completion (list T)) :
  sequence_run t i n evs c -> Sorted le (t :: evs.*1).
Proof.
  intros Hrun; induction Hrun; csimpl; repeat (constructor; try lia).
  - inversion IHHrun; subst. assumption.
  - inversion IHHrun; subst.
    match goal with H : HdRel _ _ _ |- _ => inversion H; subst; constructor; lia end.
Qed.

Lemma aborted_fired_by rt : aborted rt = fired_by (fired_at rt) (now rt).
Proof. reflexivity. Qed.

Lemma last_cons_other {A} (x y : A) (l : list A) :
  x <> y -> last (x :: l) = Some y <-> last l = Some y.
Proof.
  intros Hne. destruct l as [|z l].
  - simpl. split; [intros [= ->]; contradiction|discriminate].
  - rewrite last_cons_cons. reflexivity.
Qed.

Lemma sequence_loop_chained tasks : forall i results rt,
  exists evs c,
    (sequence_loop i tasks results rt).1 = extend_results results c /\
    trace (sequence_loop i tasks results rt).2 = trace rt ++ evs /\
    timed_calls evs =
      calls_of i (called (fired_at rt) (chained tasks (closure rt) (now rt))) /\
    timed_settlements evs =
      settlements_of i (called (fired_at rt) (chained tasks (closure rt) (now rt))) /\
    sequence_ends (fired_at rt) (chained tasks (closure rt) (now rt)) c.
Proof.
  induction tasks as [|f rest IH]; intros i results rt.
  - exists [], (Return []). simpl. rewrite !app_nil_r.
    do 4 (split; [reflexivity|]). split; [|split].
    + intros vs. split.
      * intros [= <-]. split; [reflexivity|constructor].
      * intros [_ H]. inversion H. reflexivity.
    + split; [discriminate|]. intros [_ [t H]]. discriminate.
    + intros e. split; [discriminate|].
      intros [[H _]|[_ (t & t' & H)]]; [contradiction|discriminate].
  - pose proof (aborted_fired_by rt) as Hfb. unfold sequence_ends.
    simpl. unfold mbind, async_bind. simpl.
    destruct (aborted rt) eqn:Hab.
    + exists [(now rt, EvAborted true)], (Throw aborted_error). simpl.
      rewrite <- Hfb. do 4 (split; [reflexivity|]). split; [|split].
      * intros vs. split; [discriminate|]. intros [H _]. discriminate.
      * split; [discriminate|]. intros [H _]. discriminate.
      * intros e. split.
        -- intros [= <-]. left. split; [discriminate|reflexivity].
        -- intros [[_ ->]|[H _]]; [reflexivity|discriminate].
    + unfold invoke. simpl.
      destruct (f (closure rt) (now rt)) as [[[t [v|e]]|] s'] eqn:Hf; simpl;
        rewrite <- Hfb;
        try (replace (now rt `max` (now rt `max` t)) with (now rt `max` t) by lia).
      * match goal with |- context [sequence_loop _ _ _ ?r0] => set (r := r0) end.
        destruct (IH (S i) (results ++ [v]) r) as (evs & c & Hc & Htr & Hcalls & Hset & Hend).
        change (now r) with (now rt `max` t) in Hcalls, Hset, Hend.
        change (closure r) with s' in Hcalls, Hset, Hend.
        change (fired_at r) with (fired_at rt) in Hcalls, Hset, Hend.
        eexists (_ :: _ :: _ :: evs), (extend_results [v] c).
        rewrite Hc, Htr. rewrite extend_results_app. split; [reflexivity|].
        split; [subst r; simpl; rewrite <- !app_assoc; reflexivity|].
        split; [csimpl; rewrite Hcalls; reflexivity|].
        split; [csimpl; rewrite Hset; reflexivity|].
        destruct Hend as (Hret & Hhang & Hthrow). simpl.
        set (x := (now rt, Some (now rt `max` t, Fulfilled v)) : time * promise T) in *.
        set (cs := chained rest s' (now rt `max` t)) in *.
        split; [|split].
        -- intros vs. split.
           ++ destruct c as [ws| |]; try discriminate. simpl. intros [= <-].
              destruct (proj1 (Hret ws) eq_refl) as [Heq HF].
              split; [rewrite Heq; reflexivity|].
              constructor; [exists (now rt `max` t); reflexivity|exact HF].
           ++ intros [Heq HF]. inversion HF as [|x0 v0 l ws [t0 Hx] HF']; subst.
              injection Hx as <-. injection Heq as Heq.
              rewrite (proj2 (Hret ws) (conj Heq HF')). subst. reflexivity.
        -- split.
           ++ destruct c; try discriminate. intros _.
              destruct (proj1 Hhang eq_refl) as [Heq [t0 Hl]].
              split; [rewrite Heq; reflexivity|]. exists t0.
              apply last_cons_other; [discriminate|exact Hl].
           ++ intros [Heq [t0 Hl]]. injection Heq as Heq.
              apply last_cons_other in Hl; [|discriminate].
              rewrite (proj2 Hhang (conj Heq (ex_intro _ t0 Hl))). reflexivity.
        -- intros e. split.
           ++ destruct c as [|e0|]; try discriminate. simpl. intros [= <-].
              destruct (proj1 (Hthrow e0) eq_refl) as [[Hne ->]|[Heq (t0 & t1 & Hl)]].
              ** left. split; [|reflexivity]. intros [= Heq]. contradiction.
              ** right. split; [rewrite Heq; reflexivity|]. exists t0, t1.
                 apply last_cons_other; [discriminate|exact Hl].
           ++ intros [[Hne ->]|[Heq (t0 & t1 & Hl)]].
              ** rewrite (proj2 (Hthrow aborted_error)); [reflexivity|].
                 left. split; [|reflexivity]. intros Heq. apply Hne. rewrite Heq. reflexivity.
              ** injection Heq as Heq. apply last_cons_other in Hl; [|discriminate].
                 rewrite (proj2 (Hthrow e)); [reflexivity|].
                 right. split; [exact Heq|]. exists t0, t1. exact Hl.
      * eexists [_; _; _], (Throw e). simpl. split; [reflexivity|].
        split; [rewrite <- !app_assoc; reflexivity|].
        split; [reflexivity|]. split; [reflexivity|].
        split; [|split].
        -- intros vs. split; [discriminate|]. intros [_ HF].
           inversion HF as [|x0 v0 l ws [t0 Hx] HF']; subst. discriminate.
        -- split; [discriminate|]. intros [_ [t0 Hl]]. discriminate.
        -- intros e0. split.
           ++ intros [= <-]. right. split; [reflexivity|]. eexists _, _. reflexivity.
           ++ intros [[Hne _]|[_ (t0 & t1 & Hl)]]; [contradiction|].
              injection Hl as _ _ <-. reflexivity.
      * eexists [_; _], Hang. simpl. split; [reflexivity|].
        split; [rewrite <- !app_assoc; reflexivity|].
        split; [reflexivity|]. split; [reflexivity|].
        split; [|split].
        -- intros vs. split; [discriminate|]. intros [_ HF].
           inversion HF as [|x0 v0 l ws [t0 Hx] HF']; subst. discriminate.
        -- split; [intros _|reflexivity]. split; [reflexivity|]. eexists. reflexivity.
        -- intros e0. split; [discriminate|].
           intros [[Hne _]|[_ (t0 & t1 & Hl)]]; [contradiction|discriminate].
Qed.

(** What the entries of [chained] are: entry [j] is a call of the task at
    position [j] (the first one in the state and at the instant given);
    every entry but the last fulfilled, and the next call is made at the
    instant of that fulfilment. *)
Lemma chained_entries tasks : forall s t j t1 p,
  chained tasks s t !! j = Some (t1, p) ->
  (exists f s', tasks !! j = Some f /\ p = not_before t1 (f s' t1).1 /\
                (j = 0 -> s' = s /\ t1 = t)) /\
  (S j < length (chained tasks s t) ->
   exists t' v p', p = Some (t', Fulfilled v) /\
                   chained tasks s t !! S j = Some (t', p')).
Proof.
  induction tasks as [|f rest IH]; intros s t j t1 p Hj; [discriminate|].
  simpl in Hj. simpl. destruct j as [|j].
  - injection Hj as <- <-. split; [exists f, s; auto|].
    intros Hlen. destruct (not_before t (f s t).1) as [[t' [v|e]]|];
      try (simpl in Hlen; lia).
    exists t', v. destruct rest as [|g rest]; [simpl in Hlen; lia|].
    simpl. eexists. split; reflexivity.
  - simpl in Hj.
    destruct (not_before t (f s t).1) as [[t' [v|e]]|]; try discriminate.
    destruct (IH _ _ _ _ _ Hj) as [(g & s' & Hg & Hp & _) Hnext]. split.
    + exists g, s'. split; [exact Hg|]. split; [exact Hp|]. discriminate.
    + intros Hlen. simpl in Hlen. apply Hnext. lia.
Qed.

Lemma chained_length tasks : forall s t, length (chained tasks s t) <= length tasks.
Proof.
  induction tasks as [|f rest IH]; intros s t; simpl; [lia|].
  destruct (not_before t (f s t).1) as [[t' [v|e]]|]; simpl; try lia.
  specialize (IH (f s t).2 t'). lia.
Qed.

(** C6. Let [cs] be the calls of [tasks] made one after the other in input
    order, each task being called when the promise of the one before
    fulfilled.  [sequence] makes exactly the calls of [cs] that come before
    the token fires, at those instants and in that order, and awaits the
    promise of each before the next call; it completes as [cs] says: with
    the values of the tasks in input order when all of them fulfilled, with
    the reason of the first task that rejects (the tasks after it are not
    called), with [Error("aborted")] when a check before a call finds the
    token fired, and it stays suspended on a task that never settles.  In
    the events [evs] it leaves, every start is followed by the settlement of
    the same task before the next start, the tasks called are those at
    positions [0 .. k-1], the events are in chronological order, and a
    failure can only be the last event. *)
Theorem sequence_one_task_at_a_time tasks rt :
  let cs := chained tasks (closure rt) (now rt) in
  let r := sequence tasks rt in
  exists evs,
    trace r.2 = trace rt ++ evs /\
    timed_calls evs = calls_of 0 (called (fired_at rt) cs) /\
    timed_settlements evs = settlements_of 0 (called (fired_at rt) cs) /\
    sequence_ends (fired_at rt) cs r.1 /\
    (forall j t p, cs !! j = Some (t, p) ->
       (exists f s, tasks !! j = Some f /\ p = not_before t (f s t).1 /\
                    (j = 0 -> s = closure rt /\ t = now rt)) /\
       (S j < length cs ->
        exists t' v p', p = Some (t', Fulfilled v) /\ cs !! S j = Some (t', p'))) /\
    one_at_a_time 0 (phases evs.*2) /\
    (exists k, k <= length tasks /\ invoked evs.*2 = seq 0 k) /\
    Sorted le evs.*1 /\
    (forall vs, r.1 = Return vs ->
       settlements evs.*2 = imap (fun i v => (i, Fulfilled v)) vs /\
       length vs = length tasks) /\
    (forall k x, evs.*2 !! k = Some x -> is_failure x = true ->
       S k = length evs /\ r.1 = Throw (failure_reason x)) /\
    (forall e, r.1 = Throw e ->
       exists x, last evs.*2 = Some x /\ is_failure x = true /\ e = failure_reason x).
Proof.
  intros cs r. subst cs r. unfold sequence.
  destruct (sequence_loop_run tasks 0 [] rt) as (evs & c & Hc & Htr & Hrun).
  destruct (sequence_loop_chained tasks 0 [] rt)
    as (evs' & c' & Hc' & Htr' & Hcalls & Hset & Hend).
  rewrite Htr in Htr'. apply app_inv_head in Htr'. subst evs'.
  rewrite extend_results_nil in Hc, Hc'.
  assert (c' = c) as -> by congruence.
  exists evs. rewrite Hc.
  split; [exact Htr|]. split; [exact Hcalls|]. split; [exact Hset|].
  split; [exact Hend|].
  split; [intros j t p Hj; exact (chained_entries _ _ _ _ _ _ Hj)|].
  split; [eapply sequence_run_one_at_a_time; exact Hrun|].
  split; [eapply sequence_run_invoked; exact Hrun|].
  split.
  { pose proof (sequence_run_chronological _ _ _ _ _ Hrun) as Hs.
    inversion Hs; subst; assumption. }
  split; [intros vs Hvs; eapply (sequence_run_results _ 0); eauto|].
  split; [eapply sequence_run_failure_last; exact Hrun|].
  intros e He. eapply sequence_run_throw; eauto.
Qed.

End SequenceProofs.

(* ================================================================== *)
(** * [retry] *)
(* ================================================================== *)

Section RetryProofs.

Context {T St : Type}.
Implicit Types (rt : @runtime T St) (fn : @task T St).

(** The loop of [retry] follows [retry_run], provided [remaining] is what is
    left of [retries] after [attempt] iterations. *)
Lemma retry_loop_run fn retries d : forall remaining attempt lastError rt,
  (remaining = 0 \/ Z.of_nat (attempt + remaining) = retries) ->
  exists evs,
    trace (retry_loop remaining attempt retries d fn lastError rt).2 = trace rt ++ evs /\
    retry_run d (now rt) attempt remaining lastError evs
      (retry_loop remaining attempt retries d fn lastError rt).1.
Proof.
  induction remaining as [|r IH]; intros attempt lastError rt Hrem.
  - exists []. simpl. rewrite app_nil_r. split; [reflexivity|constructor].
  - destruct Hrem as [|Hrem]; [discriminate|].
    simpl. unfold mbind, async_bind. simpl.
    destruct (aborted rt) eqn:Hab.
    + exists [(now rt, EvAborted true)]. simpl. split; [reflexivity|constructor].
    + unfold try_catch, invoke. simpl.
      destruct (fn (closure rt) (now rt)) as [[[t [v|e]]|] s'] eqn:Hf; simpl.
      * eexists [_; _; _]. split; [rewrite <- !app_assoc; reflexivity|].
        apply rr_success. lia.
      * destruct (Z.of_nat attempt <? retries - 1)%Z eqn:Hlt.
        -- unfold delay, clock, setTimeout, await. simpl.
           match goal with |- context [retry_loop _ _ _ _ _ _ ?r] =>
             destruct (IH (S attempt) e r) as (evs & Htr & Hrun) end.
           { right. lia. }
           eexists (_ :: _ :: _ :: _ :: evs). rewrite Htr.
           split; [simpl; rewrite <- !app_assoc; reflexivity|].
           destruct r as [|r]; [apply Z.ltb_lt in Hlt; lia|].
           eapply rr_again; [| |exact Hrun]; simpl; lia.
        -- simpl. destruct r as [|r]; [|apply Z.ltb_ge in Hlt; lia].
           simpl. eexists [_; _; _]. split; [rewrite <- !app_assoc; reflexivity|].
           apply rr_last. lia.
      * eexists [_; _]. split; [rewrite <- !app_assoc; reflexivity|]. constructor.
Qed.

(** Peels the first element off [pre] in [H : x :: l = pre ++ y :: post]. *)
Ltac uncons H pre :=
  destruct pre as [|? pre]; simpl in H;
  [ injection H; intros; subst; try discriminate
  | let H' := fresh in injection H as H' H; try (subst; discriminate) ].

(** Where the calls sit in a run of [retry]: the first one right after the
    opening check, every later one when the timer set with [d] at the
    failure of the attempt before it is due. *)
Lemma retry_run_calls d t a r lastError evs (c : completion T) :
  retry_run d t a r lastError evs c ->
  forall pre t2 j post, evs = pre ++ (t2, EvInvoke j) :: post ->
    (j = a /\ pre = [(t, EvAborted false)] /\ t2 = t) \/
    (exists j' pre' t1 e h, j = S j' /\ a <= j' /\
       pre = pre' ++ [(t1, EvSettle j' (Rejected e)); (t1, EvSetTimeout h d);
                      (t2, EvAborted false)] /\
       t2 = t1 + timer_delay d).
Proof.
  intros Hrun; induction Hrun; intros pre t2 j post Heq.
  - destruct pre; discriminate.
  - uncons Heq pre. destruct pre; discriminate.
  - uncons Heq pre. uncons Heq pre; [left; auto|]. destruct pre; discriminate.
  - uncons Heq pre. uncons Heq pre; [left; auto|].
    uncons Heq pre. destruct pre; discriminate.
  - uncons Heq pre. uncons Heq pre; [left; auto|].
    uncons Heq pre. destruct pre; discriminate.
  - uncons Heq pre. uncons Heq pre; [left; auto|].
    uncons Heq pre. uncons Heq pre. subst. right.
    destruct (IHHrun _ _ _ _ eq_refl)
      as [(-> & -> & ->)|(j' & pre' & t1 & e0 & h0 & -> & Hle & -> & ->)].
    + exists a, [(t, EvAborted false); (t, EvInvoke a)], t', e, h.
      repeat split; auto.
    + exists j', ((t, EvAborted false) :: (t, EvInvoke a) :: (t', EvSettle a (Rejected e))
                    :: (t', EvSetTimeout h d) :: pre'), t1, e0, h0.
      repeat split; auto. lia.
Qed.

Lemma retry_run_invoked d t a r lastError evs (c : completion T) :
  retry_run d t a r lastError evs c ->
  exists k, k <= r /\ invoked evs.*2 = seq a k.
Proof.
  intros Hrun; induction Hrun; csimpl.
  - exists 0. split; [lia|reflexivity].
  - exists 0. split; [lia|reflexivity].
  - exists 1. split; [lia|reflexivity].
  - exists 1. split; [lia|reflexivity].
  - exists 1. split; [lia|reflexivity].
  - destruct IHHrun as (k & Hk & Hinv). exists (S k). split; [lia|].
    csimpl. rewrite Hinv. reflexivity.
Qed.

Lemma retry_run_all_failed d t a r lastError evs (c : completion T) :
  retry_run d t a r lastError evs c ->
  forall errs,
    settlements evs.*2 = imap (fun j e => (a + j, Rejected e)) errs ->
    length errs = r ->
    c = Throw (default lastError (last errs)).
Proof.
  intros Hrun; induction Hrun; intros errs Hs Hlen.
  - destruct errs; [reflexivity|discriminate].
  - destruct errs; discriminate.
  - destruct errs; discriminate.
  - destruct errs; discriminate.
  - destruct errs as [|e0 [|e1 errs]]; try discriminate.
    csimpl in Hs. injection Hs as _ <-. reflexivity.
  - destruct errs as [|e0 errs]; try discriminate.
    csimpl in Hs. injection Hs as _ <- Hs.
    rewrite (IHHrun errs).
    + destruct errs as [|e1 errs]; [discriminate|]. rewrite last_cons_cons.
      destruct (proj2 (last_is_Some (e1 :: errs))) as [y ->]; [discriminate|reflexivity].
    + rewrite Hs. apply imap_ext. intros j x _. csimpl. f_equal. lia.
    + simpl in Hlen. lia.
Qed.

Lemma retry_run_delays d t a r lastError evs (c : completion T) :
  retry_run d t a r lastError evs c ->
  Forall (fun ms => ms = d) (timer_durations evs.*2).
Proof.
  intros Hrun; induction Hrun; csimpl; repeat constructor. exact IHHrun.
Qed.

Lemma last_cons_rejected (t t' : time) (e e0 : thrown) (l : list (time * promise T)) :
  (exists t1 t2, last ((t, Some (t', Rejected e)) :: l) = Some (t1, Some (t2, Rejected e0))) <->
  (l = [] /\ e0 = e) \/ (exists t1 t2, last l = Some (t1, Some (t2, Rejected e0))).
Proof.
  destruct l as [|z l].
  - simpl. split.
    + intros (t1 & t2 & [= <- <- <-]). left. auto.
    + intros [[_ ->]|(t1 & t2 & H)]; [eauto|discriminate].
  - rewrite last_cons_cons. split.
    + intros H. right. exact H.
    + intros [[H _]|H]; [discriminate|exact H].
Qed.

Lemma retry_ends_rejected (fired : option time) (t t' : time) (e lastError : thrown)
    (cs : list (time * promise T)) (c : completion T) :
  fired_by fired t = false ->
  retry_ends fired cs e c ->
  retry_ends fired ((t, Some (t', Rejected e)) :: cs) lastError c.
Proof.
  intros Hf (Hret & Hhang & Hthrow). unfold retry_ends. simpl. rewrite Hf.
  split; [|split].
  - intros v. rewrite Hret. split.
    + intros [Heq (t1 & t2 & Hl)]. split; [rewrite Heq; reflexivity|].
      exists t1, t2. apply last_cons_other; [discriminate|exact Hl].
    + intros [[= Heq] (t1 & t2 & Hl)]. split; [exact Heq|].
      exists t1, t2. apply last_cons_other in Hl; [exact Hl|discriminate].
  - rewrite Hhang. split.
    + intros [Heq (t1 & Hl)]. split; [rewrite Heq; reflexivity|].
      exists t1. apply last_cons_other; [discriminate|exact Hl].
    + intros [[= Heq] (t1 & Hl)]. split; [exact Heq|].
      exists t1. apply last_cons_other in Hl; [exact Hl|discriminate].
  - intros e0. rewrite Hthrow. split.
    + intros [[Hne ->]|[Heq Hl]].
      * left. split; [|reflexivity]. intros [= Heq]. contradiction.
      * right. split; [rewrite Heq; reflexivity|]. right.
        apply last_cons_rejected. exact Hl.
    + intros [[Hne ->]|[[= Heq] [[H _]|Hl]]]; [| discriminate |].
      * left. split; [|reflexivity]. intros Heq. apply Hne. rewrite Heq. reflexivity.
      * right. split; [exact Heq|]. apply last_cons_rejected in Hl. exact Hl.
Qed.

Lemma retry_loop_attempts fn retries d : forall remaining attempt lastError rt,
  (remaining = 0 \/ Z.of_nat (attempt + remaining) = retries) ->
  exists evs,
    trace (retry_loop remaining attempt retries d fn lastError rt).2 = trace rt ++ evs /\
    timed_calls evs =
      calls_of attempt
        (called (fired_at rt) (attempts remaining fn d (closure rt) (now rt))) /\
    timed_settlements evs =
      settlements_of attempt
        (called (fired_at rt) (attempts remaining fn d (closure rt) (now rt))) /\
    retry_ends (fired_at rt) (attempts remaining fn d (closure rt) (now rt)) lastError
      (retry_loop remaining attempt retries d fn lastError rt).1.
Proof.
  induction remaining as [|r IH]; intros attempt lastError rt Hrem.
  - exists []. simpl. rewrite app_nil_r. do 3 (split; [reflexivity|]).
    split; [|split].
    + intros v. split; [discriminate|]. intros [_ (t & t' & H)]. discriminate.
    + split; [discriminate|]. intros [_ (t & H)]. discriminate.
    + intros e. split.
      * intros [= <-]. right. split; [reflexivity|]. left. auto.
      * intros [[H _]|[_ [[_ ->]|(t & t' & H)]]];
          [contradiction|reflexivity|discriminate].
  - destruct Hrem as [|Hrem]; [discriminate|].
    pose proof (aborted_fired_by rt) as Hfb.
    destruct (aborted rt) eqn:Hab.
    + exists [(now rt, EvAborted true)]. unfold retry_ends.
      simpl. unfold mbind, async_bind. simpl. rewrite Hab. simpl.
      rewrite <- Hfb. do 3 (split; [reflexivity|]). split; [|split].
      * intros v. split; [discriminate|]. intros [H _]. discriminate.
      * split; [discriminate|]. intros [H _]. discriminate.
      * intros e. split.
        -- intros [= <-]. left. split; [discriminate|reflexivity].
        -- intros [[_ ->]|[H _]]; [reflexivity|discriminate].
    + destruct (fn (closure rt) (now rt)) as [[[t [v|e]]|] s'] eqn:Hf.
      * unfold retry_ends.
        simpl. unfold mbind, async_bind. simpl. rewrite Hab.
        unfold try_catch, invoke. simpl. rewrite Hf. simpl. rewrite <- Hfb.
        replace (now rt `max` (now rt `max` t)) with (now rt `max` t) by lia.
        eexists [_; _; _]. split; [rewrite <- !app_assoc; reflexivity|].
        split; [reflexivity|]. split; [reflexivity|]. split; [|split].
        -- intros v0. split.
           ++ intros [= <-]. split; [reflexivity|]. eexists _, _. reflexivity.
           ++ intros [_ (t0 & t1 & [= _ _ <-])]. reflexivity.
        -- split; [discriminate|]. intros [_ (t0 & H)]. discriminate.
        -- intros e0. split; [discriminate|].
           intros [[H _]|[_ [[H _]|(t0 & t1 & H)]]];
             [contradiction|discriminate|discriminate].
      * cbn [attempts]. rewrite Hf. cbn [fst snd not_before].
        simpl retry_loop. unfold mbind, async_bind. simpl. rewrite Hab.
        unfold try_catch, invoke. simpl. rewrite Hf. simpl.
        replace (now rt `max` (now rt `max` t)) with (now rt `max` t) by lia.
        destruct (Z.of_nat attempt <? retries - 1)%Z eqn:Hlt.
        -- unfold delay, clock, setTimeout, await. simpl.
           match goal with |- context [retry_loop _ _ _ _ _ _ ?r0] => set (r1 := r0) end.
           destruct (IH (S attempt) e r1) as (evs & Htr & Hcalls & Hset & Hend);
             [right; lia|].
           assert (Hnow : now r1 = now rt `max` t + timer_delay d) by (simpl; lia).
           rewrite Hnow in Hcalls, Hset, Hend.
           change (closure r1) with s' in Hcalls, Hset, Hend.
           change (fired_at r1) with (fired_at rt) in Hcalls, Hset, Hend.
           eexists (_ :: _ :: _ :: _ :: evs). rewrite Htr.
           split; [subst r1; simpl; rewrite <- !app_assoc; reflexivity|].
           rewrite <- Hfb.
           split; [csimpl; rewrite Hcalls; reflexivity|].
           split; [csimpl; rewrite Hset; reflexivity|].
           apply retry_ends_rejected; [symmetry; exact Hfb|exact Hend].
        -- simpl. destruct r as [|r]; [|apply Z.ltb_ge in Hlt; lia].
           eexists [_; _; _]. split; [simpl; rewrite <- !app_assoc; reflexivity|].
           rewrite <- Hfb.
           split; [reflexivity|]. split; [reflexivity|].
           apply retry_ends_rejected; [symmetry; exact Hfb|].
           match goal with |- context [retry_loop 0 _ _ _ _ _ ?r0] =>
             destruct (IH (S attempt) e r0) as (evs & _ & _ & _ & Hend); [left; reflexivity|]
           end.
           exact Hend.
      * unfold retry_ends.
        simpl. unfold mbind, async_bind. simpl. rewrite Hab.
        unfold try_catch, invoke. simpl. rewrite Hf. simpl. rewrite <- Hfb.
        eexists [_; _]. split; [rewrite <- !app_assoc; reflexivity|].
        split; [reflexivity|]. split; [reflexivity|]. split; [|split].
        -- intros v0. split; [discriminate|]. intros [_ (t0 & t1 & H)]. discriminate.
        -- split; [intros _|reflexivity]. split; [reflexivity|]. eexists. reflexivity.
        -- intros e0. split; [discriminate|].
           intros [[H _]|[_ [[H _]|(t0 & t1 & H)]]];
             [contradiction|discriminate|discriminate].
Qed.

(** What the entries of [attempts] are: every entry is a call of [fn] (the
    first one in the state and at the instant given); every entry but the
    last rejected, and the next call is made when the timer set at that
    rejection is due. *)
Lemma attempts_entries fn d : forall n s t j t1 p,
  attempts n fn d s t !! j = Some (t1, p) ->
  (exists s', p = not_before t1 (fn s' t1).1 /\ (j = 0 -> s' = s /\ t1 = t)) /\
  (S j < length (attempts n fn d s t) ->
   exists t' e p', p = Some (t', Rejected e) /\
                   attempts n fn d s t !! S j = Some (t' + timer_delay d, p')).
Proof.
  induction n as [|n IH]; intros s t j t1 p Hj; [discriminate|].
  simpl in Hj. simpl. destruct j as [|j].
  - injection Hj as <- <-. split; [exists s; auto|].
    intros Hlen. destruct (not_before t (fn s t).1) as [[t' [v|e]]|];
      try (simpl in Hlen; lia).
    exists t', e. destruct n as [|n]; [simpl in Hlen; lia|].
    simpl. eexists. split; reflexivity.
  - simpl in Hj.
    destruct (not_before t (fn s t).1) as [[t' [v|e]]|]; try discriminate.
    destruct (IH _ _ _ _ _ Hj) as [(s' & Hp & _) Hnext]. split.
    + exists s'. split; [exact Hp|]. discriminate.
    + intros Hlen. simpl in Hlen. apply Hnext. lia.
Qed.

Lemma attempts_length fn d : forall n s t, length (attempts n fn d s t) <= n.
Proof.
  induction n as [|n IH]; intros s t; simpl; [lia|].
  destruct (not_before t (fn s t).1) as [[t' [v|e]]|]; simpl; try lia.
  specialize (IH (fn s t).2 (t' + timer_delay d)). lia.
Qed.

(** When the last attempt rejected, all [n] attempts were made. *)
Lemma attempts_all_failed fn d : forall n s t t1 t' e,
  last (attempts n fn d s t) = Some (t1, Some (t', Rejected e)) ->
  length (attempts n fn d s t) = n.
Proof.
  induction n as [|n IH]; intros s t t1 t' e Hl; [reflexivity|].
  cbn [attempts] in Hl. cbn [attempts].
  destruct (not_before t (fn s t).1) as [[t0 [v|e0]]|]; try discriminate.
  cbn [length]. f_equal. destruct n as [|n]; [reflexivity|].
  apply (IH _ _ t1 t' e). cbn [attempts] in Hl. cbn [attempts].
  rewrite last_cons_cons in Hl. exact Hl.
Qed.

(** [retry] makes the calls of [attempts], whatever the sign of [retries]. *)
Lemma retry_attempts_of fn (n : Z) (d : nat) rt :
  exists evs,
    trace (retry fn (Some n) (Some d) rt).2 = trace rt ++ evs /\
    timed_calls evs =
      calls_of 0 (called (fired_at rt) (attempts (Z.to_nat n) fn d (closure rt) (now rt))) /\
    timed_settlements evs =
      settlements_of 0
        (called (fired_at rt) (attempts (Z.to_nat n) fn d (closure rt) (now rt))) /\
    retry_ends (fired_at rt) (attempts (Z.to_nat n) fn d (closure rt) (now rt)) Undefined
      (retry fn (Some n) (Some d) rt).1.
Proof.
  unfold retry. simpl. apply retry_loop_attempts.
  destruct (Z.le_gt_cases n 0); [left|right]; lia.
Qed.

Lemma attempts_rejected fn (n d : nat) (s : St) (t t' : time) (e : thrown) :
  not_before t (fn s t).1 = Some (t', Rejected e) ->
  attempts (S n) fn d s t
  = (t, Some (t', Rejected e)) :: attempts n fn d (fn s t).2 (t' + timer_delay d).
Proof. intros H. cbn [attempts]. rewrite H. reflexivity. Qed.

(** C4. For [n >= 1], let [atts] be up to [n] calls of [fn] made one after
    the other, each one when the timer set at the rejection of the one
    before is due.  [retry(fn, n, d)] makes exactly the calls of [atts] that
    come before the token fires, the first one at once, each right after a
    check that found the token not fired, and never more than [n]; it
    returns the value of the first attempt that fulfils, throws
    [Error("aborted")] when a check finds the token fired, and throws the
    error of the last attempt when all [n] attempts rejected.  The timer
    between two attempts is always set with [d]: what is waited is the same
    every time, namely [d] when [d] is from [1] to [2^31 - 1], and one
    millisecond for any other [d]. *)
Theorem retry_attempts fn (n : Z) (d : nat) rt :
  (1 <= n)%Z ->
  let atts := attempts (Z.to_nat n) fn d (closure rt) (now rt) in
  let r := retry fn (Some n) (Some d) rt in
  exists evs,
    trace r.2 = trace rt ++ evs /\
    timed_calls evs = calls_of 0 (called (fired_at rt) atts) /\
    timed_settlements evs = settlements_of 0 (called (fired_at rt) atts) /\
    retry_ends (fired_at rt) atts Undefined r.1 /\
    atts <> [] /\
    (Z.of_nat (length atts) <= n)%Z /\
    (forall j t p, atts !! j = Some (t, p) ->
       (exists s, p = not_before t (fn s t).1 /\
                  (j = 0 -> s = closure rt /\ t = now rt)) /\
       (S j < length atts ->
        exists t' e p', p = Some (t', Rejected e) /\
                        atts !! S j = Some (t' + timer_delay d, p'))) /\
    (forall t t' e, last atts = Some (t, Some (t', Rejected e)) ->
       Z.of_nat (length atts) = n) /\
    ((1 <= Z.of_nat d <= TIMEOUT_MAX)%Z -> timer_delay d = d) /\
    ((Z.of_nat d < 1 \/ TIMEOUT_MAX < Z.of_nat d)%Z -> timer_delay d = 1) /\
    checked_before_each_call evs /\
    (exists k, (Z.of_nat k <= n)%Z /\ invoked evs.*2 = seq 0 k) /\
    fixed_delay_between_attempts d evs /\
    Forall (fun ms => ms = d) (timer_durations evs.*2) /\
    (forall errs,
       settlements evs.*2 = imap (fun j e => (j, Rejected e)) errs ->
       Z.of_nat (length errs) = n ->
       exists e, last errs = Some e /\ r.1 = Throw e).
Proof.
  intros Hn atts r. subst atts r. unfold retry. simpl.
  destruct (retry_loop_run fn n d (Z.to_nat n) 0 Undefined rt) as (evs & Htr & Hrun);
    [right; lia|].
  destruct (retry_loop_attempts fn n d (Z.to_nat n) 0 Undefined rt)
    as (evs' & Htr' & Hcalls & Hset & Hend); [right; lia|].
  rewrite Htr in Htr'. apply app_inv_head in Htr'. subst evs'.
  exists evs. split; [exact Htr|]. split; [exact Hcalls|]. split; [exact Hset|].
  split; [exact Hend|].
  split.
  { destruct (Z.to_nat n) as [|k] eqn:Hk; [lia|]. discriminate. }
  split; [pose proof (attempts_length fn d (Z.to_nat n) (closure rt) (now rt)); lia|].
  split; [intros j t p Hj; exact (attempts_entries _ _ _ _ _ _ _ _ Hj)|].
  split.
  { intros t t' e Hl. rewrite (attempts_all_failed _ _ _ _ _ _ _ _ Hl). lia. }
  split; [apply timer_delay_kept|]. split; [apply timer_delay_replaced|].
  split; [|split; [|split; [|split]]].
  - intros pre t j post Heq.
    destruct (retry_run_calls _ _ _ _ _ _ _ Hrun _ _ _ _ Heq)
      as [(_ & -> & ->)|(j' & pre' & t1 & e & h & _ & _ & -> & _)].
    + exists []. reflexivity.
    + exists (pre' ++ [(t1, EvSettle j' (Rejected e)); (t1, EvSetTimeout h d)]).
      rewrite <- app_assoc. reflexivity.
  - destruct (retry_run_invoked _ _ _ _ _ _ _ Hrun) as (k & Hk & Hinv).
    exists k. split; [lia|exact Hinv].
  - intros pre t2 j post Heq.
    destruct (retry_run_calls _ _ _ _ _ _ _ Hrun _ _ _ _ Heq)
      as [(Hj & _)|(j' & pre' & t1 & e & h & Hj & _ & -> & ->)]; [discriminate|].
    injection Hj as ->. exists pre', t1, e, h. split; reflexivity.
  - eapply retry_run_delays. exact Hrun.
  - intros errs Hs Hlen.
    rewrite (retry_run_all_failed _ _ _ _ _ _ _ Hrun errs Hs) by lia.
    destruct errs as [|e0 errs]; [simpl in Hlen; lia|].
    destruct (proj2 (last_is_Some (e0 :: errs))) as [y Hy]; [discriminate|].
    exists y. rewrite Hy. split; reflexivity.
Qed.

(** C10. [retry(fn, 0, d)] never calls [fn]: whatever the delay argument
    (given or omitted) and whatever the state of the token, it throws the
    unassigned [lastError], that is [undefined], and leaves the runtime
    (clock, caller's state, trace) exactly as it found it. *)
Theorem retry_zero_retries fn (delayMs : option nat) rt :
  retry fn (Some 0%Z) delayMs rt = (Throw Undefined, rt).
Proof. reflexivity. Qed.

End RetryProofs.

(* ================================================================== *)
(** * [Promise.all] and [parallel] *)
(* ================================================================== *)

Section ParallelProofs.

Context {T St : Type}.
Implicit Types (rt : @runtime T St) (tasks : list (@task T St)).

Lemma all_fulfilled_Forall2 {A} (ps : list (promise A)) vs :
  Forall2 is_fulfilled ps vs ->
  first_rejection ps = None /\ exists t, all_fulfilled ps = Some (t, vs).
Proof.
  induction 1 as [|p v ps vs [t ->] _ [IH1 [t' IH2]]]; simpl.
  - eauto.
  - rewrite IH1, IH2. eauto.
Qed.

Lemma first_rejection_None {A} (ps : list (promise A)) i t e :
  first_rejection ps = None -> rejects_at ps i t e -> False.
Proof.
  revert i. induction ps as [|q ps IH]; intros i Hnone Hi; [destruct i; discriminate|].
  simpl in Hnone. destruct i as [|i].
  - injection Hi as ->.
    destruct (first_rejection ps) as [[? ?]|]; [destruct (_ <? _)|]; discriminate.
  - apply (IH i); [|exact Hi].
    destruct q as [[tq [vq|eq]]|]; auto.
    destruct (first_rejection ps) as [[? ?]|]; [destruct (_ <? _)|]; discriminate.
Qed.

(** What [first_rejection] picks is a rejection of the list, no rejection
    of the list is earlier, and none at the same instant sits before it. *)
Lemma first_rejection_earliest {A} (ps : list (promise A)) t e :
  first_rejection ps = Some (t, e) ->
  exists i, rejects_at ps i t e /\
    forall j t' e', rejects_at ps j t' e' -> t <= t' /\ (t' = t -> i <= j).
Proof.
  revert t e. induction ps as [|p ps IH]; intros t e Hfr; [discriminate|].
  simpl in Hfr.
  destruct p as [[tp [v|ep]]|].
  - destruct (IH _ _ Hfr) as (i & Hi & Hmin). exists (S i). split; [exact Hi|].
    intros [|j] t' e' Hj; [discriminate|].
    destruct (Hmin j t' e' Hj). split; [auto|lia].
  - destruct (first_rejection ps) as [[t1 e1]|] eqn:Hrest.
    + destruct (Nat.ltb_spec t1 tp) as [Hlt|Hlt].
      * destruct (IH _ _ Hfr) as (i & Hi & Hmin). injection Hfr as <- <-.
        exists (S i). split; [exact Hi|].
        intros [|j] t' e' Hj.
        -- injection Hj as <- <-. split; lia.
        -- destruct (Hmin j t' e' Hj). split; [auto|lia].
      * injection Hfr as <- <-.
        destruct (IH _ _ eq_refl) as (i & Hi & Hmin).
        exists 0. split; [reflexivity|].
        intros [|j] t' e' Hj.
        -- injection Hj as <- <-. split; lia.
        -- destruct (Hmin j t' e' Hj). split; lia.
    + injection Hfr as <- <-. exists 0. split; [reflexivity|].
      intros [|j] t' e' Hj.
      * injection Hj as <- <-. split; lia.
      * destruct (first_rejection_None ps j t' e' Hrest Hj).
  - destruct (IH _ _ Hfr) as (i & Hi & Hmin). exists (S i). split; [exact Hi|].
    intros [|j] t' e' Hj; [discriminate|].
    destruct (Hmin j t' e' Hj). split; [auto|lia].
Qed.

Lemma first_rejection_exists {A} (ps : list (promise A)) i t e :
  rejects_at ps i t e -> is_Some (first_rejection ps).
Proof.
  intros Hi. destruct (first_rejection ps) eqn:E; [eauto|].
  destruct (first_rejection_None ps i t e E Hi).
Qed.

Lemma started_not_before tasks s t i t' (o : settled T) :
  started tasks s t !! i = Some (Some (t', o)) -> t <= t'.
Proof.
  revert s i. induction tasks as [|f rest IH]; intros s i Hi; [destruct i; discriminate|].
  destruct i as [|i]; simpl in Hi.
  - destruct (f s t).1 as [[tp op]|]; simpl in Hi; [|discriminate].
    injection Hi as <- _. lia.
  - eapply IH. exact Hi.
Qed.

(** With the token not fired, the [map] of [parallel] calls every task, in
    input order, at the instant of the call to [parallel]. *)
Lemma parallel_map_live tasks : forall i rt,
  aborted rt = false ->
  (parallel_map i tasks rt).1 = Return (started tasks (closure rt) (now rt)) /\
  now (parallel_map i tasks rt).2 = now rt /\
  exists evs, trace (parallel_map i tasks rt).2 = trace rt ++ evs /\
     invoked evs.*2 = seq i (length tasks).
Proof.
  induction tasks as [|f rest IH]; intros i rt Hab.
  - simpl. repeat split. exists []. rewrite app_nil_r. split; reflexivity.
  - simpl. unfold mbind, async_bind. simpl. rewrite Hab. unfold invoke. simpl.
    destruct (f (closure rt) (now rt)) as [p s'] eqn:Hf. simpl.
    match goal with |- context [parallel_map _ _ ?r] =>
      destruct (IH (S i) r) as (Hps & Hnow & evs & Htr & Hinv); [exact Hab|];
      destruct (parallel_map (S i) rest r) as [[ps| |] rt'] eqn:Hpm; try discriminate
    end.
    simpl in *. injection Hps as ->. rewrite Hnow, Htr. repeat split.
    exists ((now rt, EvAborted false) :: (now rt, EvInvoke i) :: evs). split.
    + rewrite <- !app_assoc. reflexivity.
    + csimpl. rewrite Hinv. reflexivity.
Qed.

(** With the token fired, every slot is a rejected promise and no task is
    called. *)
Lemma parallel_map_fired tasks : forall i rt,
  aborted rt = true ->
  (parallel_map i tasks rt).1 =
    Return (replicate (length tasks) (Promise_reject (now rt) aborted_error)) /\
  now (parallel_map i tasks rt).2 = now rt /\
  closure (parallel_map i tasks rt).2 = closure rt /\
  exists evs, trace (parallel_map i tasks rt).2 = trace rt ++ evs /\
     invoked evs.*2 = [].
Proof.
  induction tasks as [|f rest IH]; intros i rt Hab.
  - simpl. repeat split. exists []. rewrite app_nil_r. split; reflexivity.
  - simpl. unfold mbind, async_bind. simpl. rewrite Hab. simpl.
    match goal with |- context [parallel_map _ _ ?r] =>
      destruct (IH (S i) r) as (Hps & Hnow & Hcl & evs & Htr & Hinv); [exact Hab|];
      destruct (parallel_map (S i) rest r) as [[ps| |] rt'] eqn:Hpm; try discriminate
    end.
    simpl in *. injection Hps as ->. rewrite Hnow, Htr, Hcl. repeat split.
    exists ((now rt, EvAborted true) :: evs). split.
    + rewrite <- !app_assoc. reflexivity.
    + csimpl. exact Hinv.
Qed.

Lemma Promise_all_aborted {A} (t : time) (n : nat) :
  @Promise_all A t (replicate (S n) (Promise_reject t aborted_error)) =
  Promise_reject t aborted_error.
Proof.
  unfold Promise_all.
  assert (H : first_rejection (replicate (S n) (@Promise_reject A t aborted_error))
              = Some (t, aborted_error)).
  { induction n as [|n IH]; [reflexivity|].
    change (replicate (S (S n)) ?x) with (x :: replicate (S n) x).
    simpl in *. rewrite IH. rewrite Nat.ltb_irrefl. reflexivity. }
  rewrite H. unfold Promise_reject. rewrite Nat.max_id. reflexivity.
Qed.

(** C5. With the token not fired when [parallel] is called, let [ps] be the
    promises returned by the tasks, in input order.  [parallel] calls every
    task once, in input order.  If all of [ps] fulfil, with values [vs]
    position by position, the promise of [parallel] fulfils with exactly
    [vs], whatever the instants at which the tasks fulfil.  If some promise
    of [ps] rejects, the promise of [parallel] rejects with the reason of a
    single one of them, the earliest (at equal instants, the first in the
    list), and at the instant of that rejection. *)
Theorem parallel_results_in_input_order tasks rt :
  aborted rt = false ->
  let ps := started tasks (closure rt) (now rt) in
  (exists evs, trace (parallel tasks rt).2 = trace rt ++ evs /\
     invoked evs.*2 = seq 0 (length tasks)) /\
  (forall vs, Forall2 is_fulfilled ps vs ->
     exists t, (parallel tasks rt).1 = Return (Some (t, Fulfilled vs))) /\
  (forall i t e, rejects_at ps i t e ->
     exists j t' e',
       rejects_at ps j t' e' /\
       (parallel tasks rt).1 = Return (Some (t', Rejected e')) /\
       forall k t'' e'', rejects_at ps k t'' e'' -> t' <= t'' /\ (t'' = t' -> j <= k)).
Proof.
  intros Hab ps.
  destruct (parallel_map_live tasks 0 rt Hab) as (Hps & Hnow & evs & Htr & Hinv).
  unfold parallel, mbind, async_bind, clock.
  destruct (parallel_map 0 tasks rt) as [[qs| |] rt'] eqn:Hpm; try discriminate.
  simpl in *. injection Hps as ->. fold ps. split; [eauto|]. split.
  - intros vs Hall. destruct (all_fulfilled_Forall2 ps vs Hall) as [Hnone [t Hsome]].
    unfold Promise_all. rewrite Hnone, Hsome. eauto.
  - intros i t e Hi.
    destruct (first_rejection_exists ps i t e Hi) as [[t' e'] Hfr].
    destruct (first_rejection_earliest ps t' e' Hfr) as (j & Hj & Hmin).
    exists j, t', e'. split; [exact Hj|]. split; [|exact Hmin].
    unfold Promise_all. rewrite Hfr, Hnow.
    pose proof (started_not_before _ _ _ _ _ _ Hj).
    replace (now rt `max` t') with t' by lia. reflexivity.
Qed.

End ParallelProofs.

(* ================================================================== *)
(** * A token fired before dispatch *)
(* ================================================================== *)

Section FiredProofs.

Context {T St : Type}.
Implicit Types (rt : @runtime T St) (tasks : list (@task T St)).

Lemma sequence_fired f rest rt :
  aborted rt = true ->
  (sequence (f :: rest) rt).1 = Throw aborted_error /\
  closure (sequence (f :: rest) rt).2 = closure rt /\
  trace (sequence (f :: rest) rt).2 = trace rt ++ [(now rt, EvAborted true)].
Proof.
  intros Hab. unfold sequence. simpl. unfold mbind, async_bind. simpl.
  rewrite Hab. repeat split.
Qed.

(** C3, as the code has it.  With the token already fired when [sequence] or
    [parallel] is called, neither calls any of the tasks (no call is
    recorded and the caller's state is untouched).  On a non-empty list
    [sequence] throws [Error("aborted")] and the promise of [parallel] is
    rejected with [Error("aborted")] at once.  On the empty list no check is
    made: [sequence] returns the empty array and the promise of [parallel]
    fulfils with the empty array. *)
Theorem fired_token_starts_no_task tasks rt :
  aborted rt = true ->
  (exists evs, trace (sequence tasks rt).2 = trace rt ++ evs /\
     invoked evs.*2 = [] /\ closure (sequence tasks rt).2 = closure rt) /\
  (exists evs, trace (parallel tasks rt).2 = trace rt ++ evs /\
     invoked evs.*2 = [] /\ closure (parallel tasks rt).2 = closure rt) /\
  (tasks <> [] ->
     (sequence tasks rt).1 = Throw aborted_error /\
     (parallel tasks rt).1 = Return (Promise_reject (now rt) aborted_error)) /\
  (tasks = [] ->
     (sequence tasks rt).1 = Return [] /\
     (parallel tasks rt).1 = Return (Promise_resolve (now rt) [])).
Proof.
  intros Hab.
  destruct (parallel_map_fired tasks 0 rt Hab) as (Hps & Hnow & Hcl & evs & Htr & Hinv).
  assert (Hpar : (parallel tasks rt).1 =
                 Return (Promise_all (now rt)
                           (replicate (length tasks) (Promise_reject (now rt) aborted_error)))
                 /\ (parallel tasks rt).2 = (parallel_map 0 tasks rt).2).
  { unfold parallel, mbind, async_bind, clock.
    destruct (parallel_map 0 tasks rt) as [[qs| |] rt'] eqn:Hpm; try discriminate.
    simpl in *. injection Hps as ->. rewrite Hnow. split; reflexivity. }
  destruct Hpar as [Hpar1 Hpar2].
  split; [|split; [|split]].
  - destruct tasks as [|f rest].
    + exists []. simpl. rewrite app_nil_r. repeat split.
    + destruct (sequence_fired f rest rt Hab) as (_ & Hc & Ht).
      exists [(now rt, EvAborted true)]. repeat split; assumption.
  - exists evs. rewrite Hpar2. repeat split; assumption.
  - intros Hne. destruct tasks as [|f rest]; [congruence|]. split.
    + apply (sequence_fired f rest rt Hab).
    + rewrite Hpar1. simpl length. rewrite Promise_all_aborted. reflexivity.
  - intros ->. split; [reflexivity|].
    rewrite Hpar1. unfold Promise_all, Promise_resolve. simpl.
    rewrite Nat.max_0_r. reflexivity.
Qed.

End FiredProofs.

(* ================================================================== *)
(** * [timeout] *)
(* ================================================================== *)

Section TimeoutProofs.

Context {T St : Type}.
Implicit Types (rt : @runtime T St) (fn : @task T St).

(** After the race and [clearTimeout(h)], timer [h] is not pending and no
    timer is pending that was not pending before [h] was set. *)
Lemma cleared_timers (h : nat) (t D : time) (tms : list (nat * time)) :
  let after := filter (fun tm => tm.1 <> h)
                 (filter (fun tm => t < tm.2) (tms ++ [(h, D)])) in
  (h ∉ after.*1) /\ after ⊆ tms.
Proof.
  simpl. split.
  - intros Hin. apply list_elem_of_fmap in Hin as ([h' d'] & -> & Hin).
    apply list_elem_of_filter in Hin as [Hne _]. simpl in Hne. congruence.
  - intros [h' d'] Hin.
    apply list_elem_of_filter in Hin as [Hne Hin].
    apply list_elem_of_filter in Hin as [_ Hin].
    apply elem_of_app in Hin as [Hin|Hin]; [exact Hin|].
    apply list_elem_of_singleton in Hin. simpl in Hne. congruence.
Qed.

(** What a call of [timeout(fn, ms)] does, [due] being the instant at which
    the timer it sets runs. *)
Lemma timeout_run fn (ms : nat) rt :
  let p := not_before (now rt) (fn (closure rt) (now rt)).1 in
  let due := now rt + timer_delay ms in
  let timer := next_timer rt in
  let r := timeout fn ms rt in
  r.1 = match settled_by due p with
        | Some o => completion_of o
        | None => Throw timeout_error
        end /\
  now r.2 <= due /\
  (timer ∉ (timers r.2).*1) /\
  timers r.2 ⊆ timers rt /\
  trace r.2 = trace rt ++ [(now rt, EvInvoke 0); (now rt, EvSetTimeout timer ms);
                           (now r.2, EvClearTimeout timer)].
Proof.
  intros p due timer r. subst p due timer r.
  unfold timeout, pTimeout, mbind, async_bind, invoke, clock, setTimeout, try_finally,
    await, clearTimeout, settled_by.
  generalize (timer_delay ms) as gap. intros gap.
  destruct (fn (closure rt) (now rt)) as [[[t o]|] s']; simpl.
  - destruct (Nat.ltb_spec (now rt + gap) (now rt `max` t)) as [Hlt|Hlt];
      destruct (Nat.leb_spec (now rt `max` t) (now rt + gap)) as [Hle|Hle]; try lia.
    + simpl. split; [reflexivity|]. split; [lia|].
      pose proof (cleared_timers (next_timer rt) (now rt `max` (now rt + gap))
                    (now rt + gap) (timers rt)) as [H1 H2].
      split; [exact H1|]. split; [exact H2|].
      rewrite <- !app_assoc. reflexivity.
    + pose proof (cleared_timers (next_timer rt) (now rt `max` (now rt `max` t))
                    (now rt + gap) (timers rt)) as [H1 H2].
      destruct o as [v|e]; simpl; (split; [reflexivity|]); (split; [lia|]);
        (split; [exact H1|]); (split; [exact H2|]);
        rewrite <- !app_assoc; reflexivity.
  - split; [reflexivity|]. split; [lia|].
    pose proof (cleared_timers (next_timer rt) (now rt `max` (now rt + gap))
                  (now rt + gap) (timers rt)) as [H1 H2].
    split; [exact H1|]. split; [exact H2|].
    rewrite <- !app_assoc. reflexivity.
Qed.

(** C7. Let [p] be the promise [fn] returns and [due] the instant at which
    the timer set by [timeout(fn, ms)] runs.  If [p] has settled by then,
    [timeout(fn, ms)] completes as [p] did (returns its value, or throws its
    error); if not (later, or never), it throws [Error("timeout")].  Either
    way it completes, no later than [due], and its last act is
    [clearTimeout] on the timer it set: that timer is not pending
    afterwards, and no timer is pending that was not pending before.  For
    [ms] from [1] to [2^31 - 1] the timer runs [ms] after the call, so that
    what decides is whether [p] has settled within [ms]. *)
Theorem timeout_settles_and_clears fn (ms : nat) rt :
  let p := not_before (now rt) (fn (closure rt) (now rt)).1 in
  let due := now rt + timer_delay ms in
  let timer := next_timer rt in
  let r := timeout fn ms rt in
  r.1 = match settled_by due p with
        | Some o => completion_of o
        | None => Throw timeout_error
        end /\
  now r.2 <= due /\
  (timer ∉ (timers r.2).*1) /\
  timers r.2 ⊆ timers rt /\
  trace r.2 = trace rt ++ [(now rt, EvInvoke 0); (now rt, EvSetTimeout timer ms);
                           (now r.2, EvClearTimeout timer)] /\
  ((1 <= Z.of_nat ms <= TIMEOUT_MAX)%Z ->
   due = now rt + ms /\
   r.1 = match settled_by (now rt + ms) p with
         | Some o => completion_of o
         | None => Throw timeout_error
         end).
Proof.
  intros p due timer r.
  destruct (timeout_run fn ms rt) as (H1 & H2 & H3 & H4 & H5).
  repeat (split; [assumption|]).
  intros Hms. subst due. rewrite <- (timer_delay_kept ms Hms) at 2 3.
  split; [reflexivity|exact H1].
Qed.

End TimeoutProofs.

(* ================================================================== *)
(** * The runner: what each operation does to the cells *)
(* ================================================================== *)

Section HookProofs.

Context {T : Type}.
Implicit Types (h : @hook T) (fl : gset nat) (c : nat).

Lemma signal_of_controllers c h h' :
  controllers h' = controllers h -> signal_of c h' = signal_of c h.
Proof. unfold signal_of. intros ->. reflexivity. Qed.

Lemma signal_of_abort c c' h :
  signal_of c (abort c' h) =
  if decide (c = c' /\ c' < length (controllers h)) then true else signal_of c h.
Proof.
  unfold signal_of, abort. simpl.
  destruct (decide (c = c' /\ c' < length (controllers h))) as [[-> Hlt]|Hn].
  - rewrite list_lookup_insert_eq; [reflexivity|exact Hlt].
  - destruct (decide (c = c')) as [->|Hne].
    + rewrite list_insert_ge; [reflexivity|]. lia.
    + rewrite list_lookup_insert_ne; [reflexivity|congruence].
Qed.

Lemma signal_of_abort_current c h :
  signal_of c (abort_current h) =
  if decide (abortControllerRef h = Some c /\ c < length (controllers h))
  then true else signal_of c h.
Proof.
  unfold abort_current. destruct (abortControllerRef h) as [c'|] eqn:Href.
  - rewrite signal_of_abort.
    destruct (decide (c = c' /\ c' < length (controllers h))) as [[Hc Hlt]|Hn];
      destruct (decide (Some c' = Some c /\ c < length (controllers h))) as [[Heq Hlt']|Hn'];
      try reflexivity.
    + exfalso. apply Hn'. subst c'. auto.
    + exfalso. apply Hn. injection Heq as ->. auto.
  - destruct (decide (None = Some c /\ c < length (controllers h))) as [[? _]|];
      [discriminate|reflexivity].
Qed.

(** A fired token stays fired when the current controller is aborted. *)
Lemma signal_of_abort_current_mono c h :
  signal_of c h = true -> signal_of c (abort_current h) = true.
Proof.
  intros Hs. rewrite signal_of_abort_current, Hs. destruct (decide _); reflexivity.
Qed.

Lemma length_abort_current h :
  length (controllers (abort_current h)) = length (controllers h).
Proof.
  unfold abort_current, abort. destruct (abortControllerRef h); simpl; [|reflexivity].
  apply length_insert.
Qed.

Lemma signal_of_bound c h : signal_of c h = true -> c < length (controllers h).
Proof.
  unfold signal_of. intros H. destruct (controllers h !! c) eqn:E; [|discriminate].
  eapply lookup_lt_Some. exact E.
Qed.

Lemma start_fields opts h :
  let r := executeRun_start opts h in
  r.1 = length (controllers h) /\
  controllers r.2 = controllers (abort_current h) ++ [false] /\
  abortControllerRef r.2 = Some (length (controllers h)) /\
  isMountedRef r.2 = isMountedRef h /\
  status r.2 = Running /\ result r.2 = None /\ error r.2 = None.
Proof.
  unfold executeRun_start, new_AbortController, when. rewrite length_abort_current.
  destruct (dev opts); simpl; repeat split;
    unfold abort_current, abort; destruct (abortControllerRef h); reflexivity.
Qed.

Lemma signal_of_start opts c h :
  signal_of c (executeRun_start opts h).2 =
  if decide (c = length (controllers h)) then false else signal_of c (abort_current h).
Proof.
  destruct (start_fields opts h) as (_ & Hcs & _).
  unfold signal_of. rewrite Hcs.
  pose proof (length_abort_current h) as Hlen.
  destruct (decide (c = length (controllers h))) as [->|Hne].
  - rewrite lookup_app_r by lia. rewrite Hlen, Nat.sub_diag. reflexivity.
  - destruct (decide (c < length (controllers h))).
    + rewrite lookup_app_l by lia. reflexivity.
    + rewrite !lookup_ge_None_2; [reflexivity|lia|rewrite length_app; simpl; lia].
Qed.

Lemma settle_fields opts c (o : settled T) h :
  let r := executeRun_settle opts c o h in
  controllers r.2 = controllers h /\
  isMountedRef r.2 = isMountedRef h /\
  abortControllerRef r.2 =
    (if decide (abortControllerRef h = Some c) then None else abortControllerRef h) /\
  status r.2 =
    (if cancelled c h then Cancelled
     else match o with Fulfilled _ => Success | Rejected _ => Error end) /\
  result r.2 =
    (if cancelled c h then result h
     else match o with Fulfilled v => Some v | Rejected _ => result h end) /\
  error r.2 =
    (if cancelled c h then error h
     else match o with Fulfilled _ => error h | Rejected e => Some e end).
Proof.
  unfold executeRun_settle, executeRun_finally, when.
  destruct o as [v|e]; destruct (cancelled c h); destruct (dev opts);
    destruct (onError opts); destruct (onFinally opts); simpl;
    destruct (decide (abortControllerRef h = Some c)); simpl; repeat split.
Qed.

Lemma cancel_fields h :
  controllers (cancel h) = controllers (abort_current h) /\
  abortControllerRef (cancel h) = None /\
  isMountedRef (cancel h) = isMountedRef h /\
  status (cancel h) = Cancelled /\ result (cancel h) = result h /\ error (cancel h) = error h.
Proof.
  unfold cancel, abort_current, abort. destruct (abortControllerRef h); repeat split.
Qed.

Lemma unmount_fields h :
  controllers (unmount h) = controllers (abort_current h) /\
  abortControllerRef (unmount h) = None /\
  isMountedRef (unmount h) = false /\
  status (unmount h) = status h /\ result (unmount h) = result h /\ error (unmount h) = error h.
Proof.
  unfold unmount, abort_current, abort. simpl.
  destruct (abortControllerRef h); repeat split.
Qed.

Lemma deps_cleanup_fields h :
  abortControllerRef (deps_cleanup h) = abortControllerRef h /\
  isMountedRef (deps_cleanup h) = isMountedRef h /\
  status (deps_cleanup h) = status h /\
  result (deps_cleanup h) = result h /\ error (deps_cleanup h) = error h.
Proof.
  unfold deps_cleanup, abort_current, abort.
  destruct (abortControllerRef h) eqn:E; simpl; rewrite ?E; repeat split.
Qed.

End HookProofs.

(* ================================================================== *)
(** * The runner: an invariant of the reachable states *)
(* ================================================================== *)

Section HookInvariant.

Context {T : Type}.
Implicit Types (h : @hook T) (fl : gset nat) (c : nat).

(** Under the invariant, aborting the current controller leaves every run
    in flight with a fired token. *)
Lemma inflight_aborted h fl c :
  flow_inv h fl -> c ∈ fl -> signal_of c (abort_current h) = true.
Proof.
  intros (_ & Hlen & Hcur & _) Hc. rewrite signal_of_abort_current.
  destruct (decide (abortControllerRef h = Some c /\ c < length (controllers h))) as [|Hn];
    [reflexivity|].
  destruct (signal_of c h) eqn:Hs; [reflexivity|].
  exfalso. apply Hn. split; [apply Hcur; assumption|apply Hlen; assumption].
Qed.

(** An operation that aborts the current controller, clears or keeps the
    ref, and allocates nothing keeps the invariant. *)
Lemma flow_inv_after_abort h h' fl :
  flow_inv h fl ->
  controllers h' = controllers (abort_current h) ->
  (abortControllerRef h' = None \/ abortControllerRef h' = abortControllerRef h) ->
  flow_inv h' fl.
Proof.
  intros Hinv Hcs Href.
  assert (Hall : forall c, c ∈ fl -> signal_of c h' = false -> False).
  { intros c Hc Hs.
    rewrite (signal_of_controllers c (abort_current h)) in Hs by exact Hcs.
    rewrite (inflight_aborted h fl c Hinv Hc) in Hs. discriminate. }
  destruct Hinv as (Hr & Hlen & _).
  split; [|split; [|split]].
  - intros c Hc. rewrite Hcs, length_abort_current. apply Hr.
    destruct Href as [Href|Href]; rewrite Href in Hc; [discriminate|exact Hc].
  - intros c Hc. rewrite Hcs, length_abort_current. apply Hlen. exact Hc.
  - intros c Hc Hs. destruct (Hall c Hc Hs).
  - intros c Hc Hs. destruct (Hall c Hc Hs).
Qed.

Lemma flow_step_inv opts (x y : @hook T * gset nat) :
  flow_step opts x y -> flow_inv x.1 x.2 -> flow_inv y.1 y.2.
Proof.
  intros Hstep; destruct Hstep as [h fl|h fl c o Hc|h fl|h fl|h fl|h fl];
    cbn [fst snd]; intros Hinv.
  - (* a run starts *)
    destruct (start_fields opts h) as (Hc0 & Hcs & Href & _ & _ & Hres & Herr).
    rewrite Hc0.
    assert (Hfresh : forall c, c ∈ ({[length (controllers h)]} ∪ fl : gset nat) ->
              signal_of c (executeRun_start opts h).2 = false ->
              c = length (controllers h)).
    { intros c Hc Hs. rewrite signal_of_start in Hs.
      destruct (decide (c = length (controllers h))); [assumption|].
      apply elem_of_union in Hc as [Hc|Hc]; [apply elem_of_singleton in Hc; assumption|].
      rewrite (inflight_aborted h fl c Hinv Hc) in Hs. discriminate. }
    split; [|split; [|split]].
    + intros c Hc. rewrite Href in Hc. injection Hc as <-.
      rewrite Hcs, length_app, length_abort_current. simpl. lia.
    + intros c Hc. rewrite Hcs, length_app, length_abort_current. simpl.
      apply elem_of_union in Hc as [Hc|Hc].
      * apply elem_of_singleton in Hc. lia.
      * destruct Hinv as (_ & Hlen & _). specialize (Hlen c Hc). lia.
    + intros c Hc Hs. rewrite Href. f_equal. symmetry. apply Hfresh; assumption.
    + intros c Hc Hs. split; assumption.
  - (* a run settles *)
    destruct (settle_fields opts c o h) as (Hcs & _ & Href & _ & Hres & Herr).
    destruct Hinv as (Hr & Hlen & Hcur & Hclean).
    assert (Hsig : forall c', signal_of c' (executeRun_settle opts c o h).2 = signal_of c' h)
      by (intros; apply signal_of_controllers; exact Hcs).
    assert (Hother : forall c', c' ∈ fl ∖ {[c]} -> signal_of c' h = false ->
              cancelled c h = true).
    { intros c' Hc' Hs. apply elem_of_difference in Hc' as [Hin Hne].
      destruct (cancelled c h) eqn:Hcan; [reflexivity|].
      unfold cancelled in Hcan. apply orb_false_iff in Hcan as [Hsc _].
      pose proof (Hcur c Hc Hsc) as E1. pose proof (Hcur c' Hin Hs) as E2.
      rewrite E1 in E2. injection E2 as ->.
      exfalso. apply Hne. apply elem_of_singleton. reflexivity. }
    split; [|split; [|split]].
    + intros c' Hc'. rewrite Href in Hc'. rewrite Hcs.
      destruct (decide (abortControllerRef h = Some c)); [discriminate|].
      apply Hr. exact Hc'.
    + intros c' Hc'. rewrite Hcs. apply Hlen.
      apply elem_of_difference in Hc' as [Hin _]. exact Hin.
    + intros c' Hc' Hs. rewrite Hsig in Hs. rewrite Href.
      pose proof Hc' as Hc''. apply elem_of_difference in Hc'' as [Hin Hne].
      pose proof (Hcur c' Hin Hs) as Hrc.
      destruct (decide (abortControllerRef h = Some c)) as [Heq|]; [|exact Hrc].
      rewrite Hrc in Heq. injection Heq as ->.
      exfalso. apply Hne. apply elem_of_singleton. reflexivity.
    + intros c' Hc' Hs. rewrite Hsig in Hs. rewrite Hres, Herr.
      rewrite (Hother c' Hc' Hs).
      apply elem_of_difference in Hc' as [Hin _]. exact (Hclean c' Hin Hs).
  - (* cancel *)
    destruct (cancel_fields h) as (Hcs & Href & _).
    apply (flow_inv_after_abort h); auto.
  - (* mount *)
    exact Hinv.
  - (* unmount *)
    destruct (unmount_fields h) as (Hcs & Href & _).
    apply (flow_inv_after_abort h); auto.
  - (* clean-up of the auto-run effect *)
    destruct (deps_cleanup_fields h) as (Href & _).
    apply (flow_inv_after_abort h); auto.
Qed.

Lemma flow_steps_inv opts (x y : @hook T * gset nat) :
  rtc (flow_step opts) x y -> flow_inv x.1 x.2 -> flow_inv y.1 y.2.
Proof.
  induction 1 as [|x y z Hstep _ IH]; [auto|].
  intros Hinv. apply IH. eapply flow_step_inv; eassumption.
Qed.

Lemma reachable_inv opts h fl : reachable opts h fl -> flow_inv h fl.
Proof.
  intros Hr. apply (flow_steps_inv opts _ _ Hr).
  cbn [fst snd]. repeat split; try (intros c Hc; set_solver); discriminate.
Qed.

(** Once fired, the token of a run stays fired whatever happens next. *)
Lemma flow_step_signal_mono opts (x y : @hook T * gset nat) c :
  flow_step opts x y -> signal_of c x.1 = true -> signal_of c y.1 = true.
Proof.
  intros Hstep; destruct Hstep as [h fl|h fl c' o Hc|h fl|h fl|h fl|h fl];
    cbn [fst snd]; intros Hs.
  - rewrite signal_of_start.
    destruct (decide (c = length (controllers h))) as [->|_].
    + apply signal_of_bound in Hs. lia.
    + apply signal_of_abort_current_mono. exact Hs.
  - destruct (settle_fields opts c' o h) as (Hcs & _).
    rewrite (signal_of_controllers c h) by exact Hcs. exact Hs.
  - destruct (cancel_fields h) as (Hcs & _).
    rewrite (signal_of_controllers c (abort_current h)) by exact Hcs.
    apply signal_of_abort_current_mono. exact Hs.
  - exact Hs.
  - destruct (unmount_fields h) as (Hcs & _).
    rewrite (signal_of_controllers c (abort_current h)) by exact Hcs.
    apply signal_of_abort_current_mono. exact Hs.
  - apply signal_of_abort_current_mono. exact Hs.
Qed.

Lemma flow_steps_signal_mono opts (x y : @hook T * gset nat) c :
  rtc (flow_step opts) x y -> signal_of c x.1 = true -> signal_of c y.1 = true.
Proof.
  induction 1 as [|x y z Hstep _ IH]; [auto|].
  intros Hs. apply IH. eapply flow_step_signal_mono; eassumption.
Qed.

End HookInvariant.

(* ================================================================== *)
(** * The runner: classification, callbacks, late settlements *)
(* ================================================================== *)

Section HookTheorems.

Context {T : Type}.
Implicit Types (h : @hook T) (fl : gset nat) (c : nat).

Lemma settle_effects opts c (o : settled T) h :
  let r := executeRun_settle opts c o h in
  exists evs,
    effects r.2 = effects h ++ evs /\
    evs =
      (if cancelled c h then
         SetStatus Cancelled ::
         match o with
         | Fulfilled _ => if dev opts then [ConsoleLog "[RAO] cancelled"] else []
         | Rejected _ => []
         end
       else
         match o with
         | Fulfilled v =>
             SetStatus Success :: SetResult (Some v) ::
             (if dev opts then [ConsoleLog "[RAO] success"] else [])
         | Rejected err =>
             SetStatus Error :: SetError (Some err) ::
             (if onError opts then [OnError err] else []) ++
             (if dev opts then [ConsoleError "[RAO] error"] else [])
         end)
      ++ (if onFinally opts then [OnFinally] else []).
Proof.
  unfold executeRun_settle, executeRun_finally, when.
  destruct o as [v|e]; destruct (cancelled c h); destruct (dev opts);
    destruct (onError opts); destruct (onFinally opts); simpl;
    destruct (decide (abortControllerRef h = Some c)); simpl;
    eexists; (split; [rewrite <- ?app_assoc; reflexivity|reflexivity]).
Qed.


(** C1, as the code has it.  While the component is mounted, the status a
    settlement sets depends on the outcome and on the token only:
    ['cancelled'] when the token of the run is fired, otherwise ['success']
    or ['error'].  In particular a rejection with any error, [Error("aborted")]
    included, whose run's token is not fired gives status ['error'] with
    that very error recorded, and leaves the result alone. *)
Theorem rejection_classified_by_token_while_mounted opts c (o : settled T) h :
  isMountedRef h = true ->
  let r := executeRun_settle opts c o h in
  status r.2 =
    (if signal_of c h then Cancelled
     else match o with Fulfilled _ => Success | Rejected _ => Error end) /\
  (forall err, o = Rejected err -> signal_of c h = false ->
     status r.2 = Error /\ error r.2 = Some err /\ result r.2 = result h).
Proof.
  intros Hm r. subst r.
  destruct (settle_fields opts c o h) as (_ & _ & _ & Hst & Hres & Herr).
  assert (Hcan : cancelled c h = signal_of c h).
  { unfold cancelled. rewrite Hm. apply orb_false_r. }
  rewrite Hcan in *. split; [exact Hst|].
  intros err -> Hs. rewrite Hs in *. auto.
Qed.

(** C2, as the code has it.  In every state a hook instance can reach:
    after [executeRun] starts a run the cells are consistent; while the run
    [c] in flight has a token that is not fired, the cells are consistent
    after [c] settles, in whichever branch, and after [cancel()]; the
    settlement of a run that is classified cancelled sets the status to
    ['cancelled'] and leaves [result] and [error] as they were; and so does
    [cancel()]. *)
Theorem state_cells_after_each_operation opts h fl :
  reachable opts h fl ->
  consistent (executeRun_start opts h).2 /\
  (forall c, c ∈ fl -> signal_of c h = false ->
     (forall o, consistent (executeRun_settle opts c o h).2) /\
     consistent (cancel h)) /\
  (forall c o, cancelled c h = true ->
     status (executeRun_settle opts c o h).2 = Cancelled /\
     result (executeRun_settle opts c o h).2 = result h /\
     error (executeRun_settle opts c o h).2 = error h) /\
  (status (cancel h) = Cancelled /\
   result (cancel h) = result h /\
   error (cancel h) = error h).
Proof.
  intros Hreach. pose proof (reachable_inv opts h fl Hreach) as (_ & _ & _ & Hclean).
  split; [|split; [|split]].
  - destruct (start_fields opts h) as (_ & _ & _ & _ & _ & Hres & Herr).
    split; intros Hne; congruence.
  - intros c Hc Hs. destruct (Hclean c Hc Hs) as [Hres Herr]. split.
    + intros o. destruct (settle_fields opts c o h) as (_ & _ & _ & Hst & Hres' & Herr').
      unfold consistent. rewrite Hst, Hres', Herr', Hres, Herr.
      destruct (cancelled c h); [split; congruence|].
      destruct o; split; congruence.
    + destruct (cancel_fields h) as (_ & _ & _ & _ & Hres' & Herr').
      unfold consistent. rewrite Hres', Herr', Hres, Herr. split; congruence.
  - intros c o Hcan.
    destruct (settle_fields opts c o h) as (_ & _ & _ & Hst & Hres & Herr).
    rewrite Hst, Hres, Herr, Hcan. auto.
  - destruct (cancel_fields h) as (_ & _ & _ & Hst & Hres & Herr). auto.
Qed.

(** C8. Take a reachable state whose current run owns controller [c], and
    fire that token by [cancel()] or by starting a new run.  Whatever
    happens afterwards, when the caller's promise of run [c] finally
    settles, with a value or with an error, the status set is ['cancelled'],
    [result] and [error] keep the values they had just before, and the
    promise of [run()] resolves with [undefined]. *)
Theorem late_settlement_keeps_cancelled opts h fl c h0 fl0 h1 fl1 (o : settled T) :
  reachable opts h fl ->
  abortControllerRef h = Some c ->
  h0 = cancel h \/ h0 = (executeRun_start opts h).2 ->
  rtc (flow_step opts) (h0, fl0) (h1, fl1) ->
  let r := executeRun_settle opts c o h1 in
  status r.2 = Cancelled /\
  result r.2 = result h1 /\
  error r.2 = error h1 /\
  r.1 = None.
Proof.
  intros Hreach Href Hfire Hsteps r. subst r.
  pose proof (reachable_inv opts h fl Hreach) as (Hvalid & _).
  specialize (Hvalid c Href).
  assert (Hfired : signal_of c (abort_current h) = true).
  { rewrite signal_of_abort_current.
    destruct (decide (abortControllerRef h = Some c /\ c < length (controllers h))) as [|Hn];
      [reflexivity|]. exfalso. apply Hn. auto. }
  assert (Hs0 : signal_of c h0 = true).
  { destruct Hfire as [->| ->].
    - destruct (cancel_fields h) as (Hcs & _).
      rewrite (signal_of_controllers c (abort_current h)) by exact Hcs. exact Hfired.
    - rewrite signal_of_start.
      destruct (decide (c = length (controllers h))); [lia|exact Hfired]. }
  pose proof (flow_steps_signal_mono opts _ _ c Hsteps Hs0) as Hs1. cbn [fst snd] in Hs1.
  assert (Hcan : cancelled c h1 = true) by (unfold cancelled; rewrite Hs1; reflexivity).
  destruct (settle_fields opts c o h1) as (_ & _ & _ & Hst & Hres & Herr).
  rewrite Hst, Hres, Herr, Hcan. repeat split.
  unfold executeRun_settle. rewrite Hcan. destruct o; reflexivity.
Qed.


End HookTheorems.

(* ================================================================== *)
(** * Worked inputs *)
(* ================================================================== *)

Import Samples.

Lemma running_hook_reachable : reachable all_callbacks running_hook ({[0]} ∪ ∅).
Proof.
  apply rtc_once. exact (step_run all_callbacks useAsyncFlow_init ∅).
Qed.

Lemma succeeded_hook_reachable :
  reachable all_callbacks succeeded_hook (({[0]} ∪ ∅) ∖ {[0]}).
Proof.
  eapply rtc_r; [exact running_hook_reachable|].
  apply (step_settle all_callbacks running_hook ({[0]} ∪ ∅) 0 (Fulfilled 42)).
  set_solver.
Qed.

Lemma run_after_unmount_reachable :
  reachable all_callbacks run_after_unmount ({[0]} ∪ ∅).
Proof.
  eapply rtc_l; [exact (step_unmount all_callbacks useAsyncFlow_init ∅)|].
  apply rtc_once. exact (step_run all_callbacks (unmount useAsyncFlow_init) ∅).
Qed.

(** The scenarios of the specification, run on the model. *)
Example parallel_two_resolved :
  (parallel [resolves 5 1; resolves 3 2] (fresh None)).1
  = Return (Promise_resolve 5 [1; 2]).
Proof. reflexivity. Qed.

Example retry_fails_twice_then_succeeds :
  let r := retry (failsThenSucceeds 2 1) (Some 3%Z) (Some 10) (fresh None) in
  r.1 = Return 2 /\ invoked (trace r.2).*2 = [0; 1; 2] /\ 20 <= now r.2.
Proof. vm_compute. repeat split. lia. Qed.

Example retry_fails_n_times_then_would_succeed :
  let r := retry (failsThenSucceeds 3 1) (Some 3%Z) (Some 10) (fresh None) in
  r.1 = Throw (Value 2) /\ invoked (trace r.2).*2 = [0; 1; 2].
Proof. vm_compute. repeat split. Qed.

Example timeout_never_resolves :
  let r := timeout neverResolves 50 (fresh None) in
  r.1 = Throw timeout_error /\ now r.2 = 50 /\ timers r.2 = [].
Proof. vm_compute. repeat split. Qed.

Example timeout_resolves_in_time :
  let r := timeout (resolves 5 1) 50 (fresh None) in
  r.1 = Return 1 /\ now r.2 = 5 /\ timers r.2 = [].
Proof. vm_compute. repeat split. Qed.

Example sequence_stops_at_fired_token :
  let r := sequence [resolves 5 1; resolves 3 2] (fresh (Some 4)) in
  r.1 = Throw aborted_error /\ invoked (trace r.2).*2 = [0].
Proof. vm_compute. repeat split. Qed.

(** Run A starts, then run B starts before A's task settles: the late
    settlement of A sets the status to ['cancelled'] and records nothing;
    B then proceeds to its own terminal state. *)
Example superseded_run_then_newer_run :
  let a_and_b := (executeRun_start all_callbacks running_hook).2 in
  let a_late := (executeRun_settle all_callbacks 0 (Fulfilled 1) a_and_b).2 in
  let b_done := (executeRun_settle all_callbacks 1 (Fulfilled 2) a_late).2 in
  signal_of 0 a_and_b = true /\ signal_of 1 a_and_b = false /\
  status a_late = Cancelled /\ result a_late = None /\
  status b_done = Success /\ result b_done = Some 2.
Proof. repeat split. Qed.

(** C3, where the sentence of the specification fails: on the empty list,
    with the token already fired, neither combinator fails. *)
Lemma fired_token_empty_list_succeeds :
  aborted (fresh (Some 0)) = true /\
  (sequence [] (fresh (Some 0))).1 = Return [] /\
  (sequence [] (fresh (Some 0))).1 <> Throw aborted_error /\
  (parallel [] (fresh (Some 0))).1 = Return (Promise_resolve 0 []) /\
  (parallel [] (fresh (Some 0))).1 <> Return (Promise_reject 0 aborted_error).
Proof. repeat split; discriminate. Qed.

Lemma fired_token_starts_no_task_witness :
  aborted (fresh (Some 0)) = true /\
  (sequence [resolves 5 1; resolves 3 2] (fresh (Some 0))).1 = Throw aborted_error /\
  (parallel [resolves 5 1; resolves 3 2] (fresh (Some 0))).1
  = Return (Promise_reject 0 aborted_error).
Proof.
  split; [reflexivity|].
  destruct (fired_token_starts_no_task [resolves 5 1; resolves 3 2] (fresh (Some 0)) eq_refl)
    as (_ & _ & Hfail & _).
  apply Hfail. discriminate.
Defined.

Lemma retry_attempts_witness :
  (1 <= 3)%Z /\
  (retry (failsThenSucceeds 5 1) (Some 3%Z) (Some 10) (fresh None)).1 = Throw (Value 2).
Proof.
  split; [lia|].
  destruct (retry_attempts (failsThenSucceeds 5 1) 3 10 (fresh None) ltac:(lia))
    as (evs & _ & _ & _ & (_ & _ & Hthrow) & _).
  apply Hthrow. right. split; [reflexivity|]. right. exists 22, 23. reflexivity.
Defined.

(** The sample run of [retry] when the timer between two attempts runs
    after one millisecond. *)
Lemma retry_with_one_ms_timer (d : nat) :
  timer_delay d = 1 ->
  let r := retry (failsThenSucceeds 5 1) (Some 3%Z) (Some d) (fresh None) in
  timed_calls (trace r.2) = [(0, 0); (2, 1); (4, 2)] /\
  timed_settlements (trace r.2) =
    [(0, 1, Rejected (Value 0)); (1, 3, Rejected (Value 1)); (2, 5, Rejected (Value 2))].
Proof.
  intros Hd r. subst r.
  destruct (retry_attempts_of (failsThenSucceeds 5 1) 3 d (fresh None))
    as (evs & Htr & Hcalls & Hset & _).
  change (trace (fresh None) ++ evs) with evs in Htr.
  rewrite Htr, Hcalls, Hset.
  change (Z.to_nat 3) with 3.
  change (closure (fresh None)) with 0. change (now (fresh None)) with 0.
  rewrite (attempts_rejected _ _ _ _ _ 1 (Value 0)) by reflexivity. rewrite Hd.
  change ((failsThenSucceeds 5 1 0 0).2) with 1. change (1 + 1) with 2.
  rewrite (attempts_rejected _ _ _ _ _ 3 (Value 1)) by reflexivity. rewrite Hd.
  change ((failsThenSucceeds 5 1 1 2).2) with 2. change (3 + 1) with 4.
  rewrite (attempts_rejected _ _ _ _ _ 5 (Value 2)) by reflexivity.
  split; reflexivity.
Qed.


(** C4, where the sentence of the specification fails: with a delay of
    [2^31] milliseconds the timer between two attempts runs after one
    millisecond.  Attempt [0] fails at instant [1] and attempt [1] is made
    at instant [2], not [d] later; likewise attempt [2]. *)
Lemma retry_beyond_timer_range_waits_one_ms :
  let d := Z.to_nat 2147483648 in
  let r := retry (failsThenSucceeds 5 1) (Some 3%Z) (Some d) (fresh None) in
  timed_calls (trace r.2) = [(0, 0); (2, 1); (4, 2)] /\
  timed_settlements (trace r.2) =
    [(0, 1, Rejected (Value 0)); (1, 3, Rejected (Value 1)); (2, 5, Rejected (Value 2))] /\
  2 < 1 + d.
Proof.
  intros d r.
  assert (Hd : timer_delay d = 1).
  { apply timer_delay_replaced. right. subst d. unfold TIMEOUT_MAX. lia. }
  destruct (retry_with_one_ms_timer d Hd) as [H1 H2].
  split; [exact H1|]. split; [exact H2|]. subst d. lia.
Qed.

(** C7, where the sentence of the specification fails: with [ms = 2^31] the
    timer runs after one millisecond.  The task fulfils with [1] after [50]
    milliseconds, well within [ms], and yet [timeout] throws
    [Error("timeout")]. *)
Lemma timeout_beyond_timer_range_fires_early :
  let ms := Z.to_nat 2147483648 in
  let p := (resolves 50 1 (closure (fresh None)) (now (fresh None))).1 in
  let r := timeout (resolves 50 1) ms (fresh None) in
  settled_by (now (fresh None) + ms) (not_before (now (fresh None)) p) = Some (Fulfilled 1) /\
  r.1 = Throw timeout_error /\
  r.1 <> Return 1.
Proof.
  intros ms p r.
  assert (Hms : timer_delay ms = 1).
  { apply timer_delay_replaced. right. subst ms. unfold TIMEOUT_MAX. lia. }
  split.
  { subst p. cbn [resolves fst Promise_resolve not_before fresh now closure Nat.add Nat.max settled_by].
    destruct (Nat.leb_spec 50 ms) as [_|Hlt]; [reflexivity|subst ms; lia]. }
  destruct (timeout_run (resolves 50 1) ms (fresh None)) as (H1 & _).
  rewrite Hms in H1. subst r. rewrite H1.
  split; [reflexivity|discriminate].
Qed.

Lemma parallel_results_in_input_order_witness :
  aborted (fresh None) = false /\
  exists t, (parallel [resolves 5 1; resolves 3 2] (fresh None)).1
            = Return (Some (t, Fulfilled [1; 2])).
Proof.
  split; [reflexivity|].
  destruct (parallel_results_in_input_order [resolves 5 1; resolves 3 2] (fresh None) eq_refl)
    as (_ & Hall & _).
  apply Hall. repeat constructor; eexists; reflexivity.
Defined.

(** C1, where the sentence of the specification fails: the component was
    unmounted and [run()] is called afterwards; the token of that run is
    never fired, the task rejects with [Error("aborted")], and the status
    set is ['cancelled']: no error is recorded and [onError] is not called. *)
Lemma rejection_after_unmount_is_cancelled :
  reachable all_callbacks run_after_unmount ({[0]} ∪ ∅) /\
  signal_of 0 run_after_unmount = false /\
  status (executeRun_settle all_callbacks 0 (Rejected aborted_error) run_after_unmount).2
  = Cancelled /\
  error (executeRun_settle all_callbacks 0 (Rejected aborted_error) run_after_unmount).2
  = None /\
  effects (executeRun_settle all_callbacks 0 (Rejected aborted_error) run_after_unmount).2
  = effects run_after_unmount ++ [SetStatus Cancelled; OnFinally].
Proof. split; [exact run_after_unmount_reachable|]. repeat split. Qed.

Lemma rejection_classified_by_token_while_mounted_witness :
  isMountedRef running_hook = true /\
  status (executeRun_settle all_callbacks 0 (Rejected aborted_error) running_hook).2 = Error /\
  error (executeRun_settle all_callbacks 0 (Rejected aborted_error) running_hook).2
  = Some aborted_error.
Proof.
  split; [reflexivity|].
  destruct (rejection_classified_by_token_while_mounted all_callbacks 0
              (Rejected aborted_error) running_hook eq_refl) as (_ & Hrej).
  destruct (Hrej aborted_error eq_refl eq_refl) as (Hst & Herr & _).
  split; assumption.
Defined.

(** C2, where the sentence of the specification fails: after a run
    succeeded with 42, [cancel()] sets the status to ['cancelled'] and the
    result is still 42. *)
Lemma cancel_after_success_keeps_result :
  reachable all_callbacks succeeded_hook (({[0]} ∪ ∅) ∖ {[0]}) /\
  status (cancel succeeded_hook) = Cancelled /\
  result (cancel succeeded_hook) = Some 42 /\
  ~ consistent (cancel succeeded_hook).
Proof.
  split; [exact succeeded_hook_reachable|]. repeat split.
  intros [Hres _]. discriminate Hres. discriminate.
Qed.

Lemma state_cells_after_each_operation_witness :
  reachable all_callbacks running_hook ({[0]} ∪ ∅) /\
  consistent (executeRun_settle all_callbacks 0 (Fulfilled 42) running_hook).2 /\
  consistent (cancel running_hook).
Proof.
  split; [exact running_hook_reachable|].
  destruct (state_cells_after_each_operation all_callbacks running_hook ({[0]} ∪ ∅)
              running_hook_reachable) as (_ & Hcur & _).
  destruct (Hcur 0 ltac:(set_solver) eq_refl) as [Hsettle Hcancel].
  split; [apply Hsettle|exact Hcancel].
Defined.

Lemma late_settlement_keeps_cancelled_witness :
  reachable all_callbacks running_hook ({[0]} ∪ ∅) /\
  abortControllerRef running_hook = Some 0 /\
  status (executeRun_settle all_callbacks 0 (Fulfilled 7)
            (executeRun_start all_callbacks (cancel running_hook)).2).2 = Cancelled /\
  result (executeRun_settle all_callbacks 0 (Fulfilled 7)
            (executeRun_start all_callbacks (cancel running_hook)).2).2 = None.
Proof.
  split; [exact running_hook_reachable|]. split; [reflexivity|].
  destruct (late_settlement_keeps_cancelled all_callbacks running_hook ({[0]} ∪ ∅) 0
              (cancel running_hook) ({[0]} ∪ ∅)
              (executeRun_start all_callbacks (cancel running_hook)).2
              ({[ (executeRun_start all_callbacks (cancel running_hook)).1 ]} ∪ ({[0]} ∪ ∅))
              (Fulfilled 7) running_hook_reachable eq_refl (or_introl eq_refl)
              (rtc_once _ _ (step_run all_callbacks (cancel running_hook) ({[0]} ∪ ∅))))
    as (Hst & Hres & _).
  split; [exact Hst|]. rewrite Hres. reflexivity.
Defined.


(* ================================================================== *)
(** * [race] *)
(* ================================================================== *)

Section RaceProofs.

Context {T St : Type}.
Implicit Types (rt : @runtime T St) (tasks : list (@task T St)).

Lemma race_map_calls tasks : forall i rt,
  (race_map i tasks rt).1 = Return (started tasks (closure rt) (now rt)) /\
  now (race_map i tasks rt).2 = now rt /\
  trace (race_map i tasks rt).2 =
    trace rt ++ ((fun j => (now rt, EvInvoke j)) <$> seq i (length tasks)).
Proof.
  induction tasks as [|f rest IH]; intros i rt.
  - simpl. rewrite app_nil_r. repeat split.
  - simpl. unfold mbind, async_bind, invoke. simpl.
    destruct (f (closure rt) (now rt)) as [p s'] eqn:Hf. simpl.
    match goal with |- context [race_map _ _ ?r] =>
      destruct (IH (S i) r) as (Hps & Hnow & Htr);
      destruct (race_map (S i) rest r) as [[ps| |] rt'] eqn:Hrm; try discriminate
    end.
    simpl in *. injection Hps as ->. rewrite Hnow, Htr. repeat split.
    rewrite <- app_assoc. reflexivity.
Qed.

Lemma Promise_race_first {A} (ps : list (promise A)) t o :
  Promise_race ps = Some (t, o) ->
  exists i, settles_at ps i t o /\
    forall j t' o', settles_at ps j t' o' -> t <= t' /\ (t' = t -> i <= j).
Proof.
  revert t o. induction ps as [|p ps IH]; intros t o Hr; [discriminate|].
  simpl in Hr. destruct p as [[tp op]|].
  - destruct (Promise_race ps) as [[t1 o1]|] eqn:Hrest.
    + destruct (Nat.ltb_spec t1 tp) as [Hlt|Hlt]; injection Hr as <- <-.
      * destruct (IH _ _ eq_refl) as (i & Hi & Hmin). exists (S i). split; [exact Hi|].
        intros [|j] t' o' Hj.
        -- injection Hj as <- <-. split; lia.
        -- destruct (Hmin j t' o' Hj). split; [auto|lia].
      * destruct (IH _ _ eq_refl) as (i & Hi & Hmin). exists 0. split; [reflexivity|].
        intros [|j] t' o' Hj.
        -- injection Hj as <- <-. split; lia.
        -- destruct (Hmin j t' o' Hj). split; lia.
    + injection Hr as <- <-. exists 0. split; [reflexivity|].
      intros [|j] t' o' Hj.
      * injection Hj as <- <-. split; lia.
      * exfalso. clear IH. revert j Hj.
        induction ps as [|q ps IHps]; intros j Hj; [destruct j; discriminate|].
        simpl in Hrest. destruct j as [|j].
        -- injection Hj as ->. destruct (Promise_race ps) as [[? ?]|];
             [destruct (_ <? _)|]; discriminate.
        -- apply (IHps) with j; [|exact Hj].
           destruct q as [[tq oq]|]; [|exact Hrest].
           destruct (Promise_race ps) as [[? ?]|]; [destruct (_ <? _)|]; discriminate.
  - destruct (IH _ _ Hr) as (i & Hi & Hmin). exists (S i). split; [exact Hi|].
    intros [|j] t' o' Hj; [discriminate|].
    destruct (Hmin j t' o' Hj). split; [auto|lia].
Qed.

Lemma Promise_race_pending {A} (ps : list (promise A)) :
  Promise_race ps = None <-> Forall (fun p => p = None) ps.
Proof.
  induction ps as [|p ps IH]; simpl.
  - split; [constructor|reflexivity].
  - destruct p as [[tp op]|].
    + split.
      * destruct (Promise_race ps) as [[? ?]|]; [destruct (_ <? _)|]; discriminate.
      * intros H. inversion H; subst. discriminate.
    + rewrite IH. split.
      * intros H. constructor; [reflexivity|exact H].
      * intros H. inversion H; subst. assumption.
Qed.

(** X1. [race] never reads the token.  Fired or not, it calls every task
    once, in input order, at the instant it is called, and records nothing
    else; its promise is [Promise.race] over the promises the tasks
    returned. *)
Theorem race_calls_every_task tasks rt :
  (race tasks rt).1 = Return (Promise_race (started tasks (closure rt) (now rt))) /\
  trace (race tasks rt).2 =
    trace rt ++ ((fun j => (now rt, EvInvoke j)) <$> seq 0 (length tasks)).
Proof.
  destruct (race_map_calls tasks 0 rt) as (Hps & _ & Htr).
  unfold race, mbind, async_bind.
  destruct (race_map 0 tasks rt) as [[ps| |] rt'] eqn:Hrm; try discriminate.
  simpl in *. injection Hps as ->. split; [reflexivity|exact Htr].
Qed.

(** X2. The promise of [race] settles as the first task promise to settle,
    with its value or with its error: no task promise settles earlier, and
    none at the same instant sits before it in the list.  It stays pending
    for ever exactly when every task promise does, which is the case of the
    empty list. *)
Theorem race_first_to_settle tasks rt :
  let ps := started tasks (closure rt) (now rt) in
  exists p,
    (race tasks rt).1 = Return p /\
    (forall t o, p = Some (t, o) ->
       exists i, settles_at ps i t o /\
         forall j t' o', settles_at ps j t' o' -> t <= t' /\ (t' = t -> i <= j)) /\
    (p = None <-> Forall (fun q => q = None) ps).
Proof.
  intros ps. exists (Promise_race ps). split; [|split].
  - destruct (race_map_calls tasks 0 rt) as (Hps & _).
    unfold race, mbind, async_bind.
    destruct (race_map 0 tasks rt) as [[qs| |] rt'] eqn:Hrm; try discriminate.
    simpl in *. injection Hps as ->. reflexivity.
  - intros t o Hp. apply Promise_race_first. exact Hp.
  - apply Promise_race_pending.
Qed.

End RaceProofs.

(* ================================================================== *)
(** * More on [retry] *)
(* ================================================================== *)

Section RetryOutcomes.

Context {T St : Type}.
Implicit Types (rt : @runtime T St) (fn : @task T St).

(** [retry] as a run of its loop, whatever the sign of [retries]. *)
Lemma retry_run_of fn (n : Z) (d : nat) rt :
  exists evs,
    trace (retry fn (Some n) (Some d) rt).2 = trace rt ++ evs /\
    retry_run d (now rt) 0 (Z.to_nat n) Undefined evs (retry fn (Some n) (Some d) rt).1.
Proof.
  unfold retry. simpl. apply retry_loop_run.
  destruct (Z.le_gt_cases n 0); [left|right]; lia.
Qed.

Lemma retry_run_return d t a r lastError evs (c : completion T) :
  retry_run d t a r lastError evs c ->
  forall v, c = Return v ->
  exists errs,
    length errs < r /\
    settlements evs.*2 =
      imap (fun j e => (a + j, Rejected e)) errs ++ [(a + length errs, Fulfilled v)] /\
    invoked evs.*2 = seq a (S (length errs)) /\
    last evs.*2 = Some (EvSettle (a + length errs) (Fulfilled v)).
Proof.
  intros Hrun; induction Hrun; intros w Hc; try discriminate.
  - injection Hc as ->. exists []. csimpl. rewrite Nat.add_0_r.
    split; [lia|]. repeat split.
  - destruct (IHHrun w Hc) as (errs & Hlen & Hs & Hinv & Hlast).
    exists (e :: errs). csimpl. split; [lia|]. rewrite Hs, Hinv. split; [|split].
    + rewrite Nat.add_0_r. f_equal.
      replace (a + S (length errs)) with (S a + length errs) by lia. f_equal.
      apply imap_ext. intros j x _. csimpl. f_equal. lia.
    + reflexivity.
    + destruct (evs.*2) as [|e0 l] eqn:E; [discriminate|].
      rewrite !last_cons_cons, Hlast.
      replace (a + S (length errs)) with (S a + length errs) by lia. reflexivity.
Qed.

Lemma retry_run_throw d t a r lastError evs (c : completion T) :
  retry_run d t a r lastError evs c ->
  forall e, c = Throw e ->
    (r = 0 /\ evs = [] /\ e = lastError) \/
    (last evs.*2 = Some (EvAborted true) /\ e = aborted_error) \/
    (0 < r /\ invoked evs.*2 = seq a r /\
     last evs.*2 = Some (EvSettle (a + r - 1) (Rejected e))).
Proof.
  intros Hrun; induction Hrun; intros err Hc; try discriminate.
  - injection Hc as <-. left. auto.
  - injection Hc as <-. right. left. auto.
  - injection Hc as <-. right. right. csimpl.
    replace (a + 1 - 1) with a by lia. split; [lia|]. split; reflexivity.
  - right. destruct (IHHrun err Hc) as [(Hr & _)|[(Hlast & ->)|(_ & Hinv & Hlast)]];
      [discriminate| |].
    + left. split; [|reflexivity]. csimpl.
      destruct (evs.*2) as [|e0 l] eqn:E; [discriminate|].
      rewrite !last_cons_cons. exact Hlast.
    + right. split; [lia|]. csimpl. rewrite Hinv. split; [reflexivity|].
      destruct (evs.*2) as [|e0 l] eqn:E; [discriminate|].
      rewrite !last_cons_cons, Hlast.
      replace (a + S (S r) - 1) with (S a + S r - 1) by lia. reflexivity.
Qed.

Lemma retry_run_timing d t a r lastError evs (c : completion T) :
  retry_run d t a r lastError evs c ->
  forall t2 j, (t2, EvInvoke j) ∈ evs ->
    a <= j /\ t + (j - a) * timer_delay d <= t2.
Proof.
  intros Hrun; induction Hrun; intros t2 j Hin;
    repeat (apply elem_of_cons in Hin as [Hin|Hin];
            [try discriminate; try (injection Hin as -> ->; split; lia)|]);
    try (apply elem_of_nil in Hin; destruct Hin).
  destruct (IHHrun t2 j Hin) as [Hle Ht]. split; [lia|].
  subst t''. replace (j - a) with (S (j - S a)) by lia.
  rewrite Nat.mul_succ_l. lia.
Qed.

(** The timers [retry] sets have all run by the time it is left. *)
Lemma retry_loop_timers fn retries d : forall remaining attempt lastError rt,
  timers (retry_loop remaining attempt retries d fn lastError rt).2 ⊆ timers rt.
Proof.
  induction remaining as [|r IH]; intros attempt lastError rt.
  - simpl. reflexivity.
  - simpl. unfold mbind, async_bind. simpl.
    destruct (aborted rt) eqn:Hab; [simpl; reflexivity|].
    unfold try_catch, invoke. simpl.
    destruct (fn (closure rt) (now rt)) as [[[t [v|e]]|] s'] eqn:Hf; simpl.
    + apply list_subseteq_filter.
    + destruct (Z.of_nat attempt <? retries - 1)%Z.
      * unfold delay, clock, setTimeout, await. simpl.
        etrans; [apply IH|]. simpl.
        intros tm Hin. apply list_elem_of_filter in Hin as [Hlt Hin].
        apply elem_of_app in Hin as [Hin|Hin].
        -- apply list_elem_of_filter in Hin as [_ Hin]. exact Hin.
        -- apply list_elem_of_singleton in Hin. subst tm. simpl in Hlt. lia.
      * simpl. etrans; [apply IH|]. simpl. apply list_subseteq_filter.
    + reflexivity.
Qed.

(** X3. [retry] returns the first success and stops there: when it returns
    [v], the attempts made are [0 .. k] for some [k] below [retries], the
    first [k] of them failed, attempt [k] fulfilled with [v], and nothing
    happened after that settlement. *)
Theorem retry_returns_first_success fn (n : Z) (d : nat) rt :
  exists evs,
    trace (retry fn (Some n) (Some d) rt).2 = trace rt ++ evs /\
    forall v, (retry fn (Some n) (Some d) rt).1 = Return v ->
      exists errs,
        (Z.of_nat (length errs) < n)%Z /\
        settlements evs.*2 =
          imap (fun j e => (j, Rejected e)) errs ++ [(length errs, Fulfilled v)] /\
        invoked evs.*2 = seq 0 (S (length errs)) /\
        last evs.*2 = Some (EvSettle (length errs) (Fulfilled v)).
Proof.
  destruct (retry_run_of fn n d rt) as (evs & Htr & Hrun).
  exists evs. split; [exact Htr|]. intros v Hv.
  destruct (retry_run_return _ _ _ _ _ _ _ Hrun v Hv) as (errs & Hlen & Hs & Hinv & Hlast).
  exists errs. split; [lia|]. auto.
Qed.

(** X4. The delays add up: attempt [j] is never made earlier than [j]
    times the delay of the timer after the call of [retry].  That delay is
    what the platform makes of [d]: [d] itself, and so [j * d] in all, when
    [d] is from [1] to [2^31 - 1]; one millisecond for any other [d]. *)
Theorem retry_attempt_not_before fn (n : Z) (d : nat) rt :
  exists evs,
    trace (retry fn (Some n) (Some d) rt).2 = trace rt ++ evs /\
    forall t j, (t, EvInvoke j) ∈ evs ->
      now rt + j * timer_delay d <= t /\
      ((1 <= Z.of_nat d <= TIMEOUT_MAX)%Z -> now rt + j * d <= t) /\
      ((Z.of_nat d < 1 \/ TIMEOUT_MAX < Z.of_nat d)%Z -> now rt + j <= t).
Proof.
  destruct (retry_run_of fn n d rt) as (evs & Htr & Hrun).
  exists evs. split; [exact Htr|]. intros t j Hin.
  destruct (retry_run_timing _ _ _ _ _ _ _ Hrun t j Hin) as [_ Ht].
  rewrite Nat.sub_0_r in Ht. split; [exact Ht|]. split; intros Hd.
  - rewrite (timer_delay_kept d Hd) in Ht. exact Ht.
  - rewrite (timer_delay_replaced d Hd), Nat.mul_1_r in Ht. exact Ht.
Qed.

(** X5. However [retry] ends (value, error, or suspended for ever on a
    promise of [fn]), no timer it set is still pending: every timer pending
    afterwards was pending before the call. *)
Theorem retry_leaves_no_timer fn (retries : option Z) (delayMs : option nat) rt :
  timers (retry fn retries delayMs rt).2 ⊆ timers rt.
Proof. unfold retry. apply retry_loop_timers. Qed.

(** X6. [retry] throws for one of three reasons only: [retries] is not
    positive, and then nothing was done and [undefined] is thrown; or the
    last thing it did was a check that found the token fired, and then
    [Error("aborted")] is thrown, whatever the errors of the attempts made
    before; or all [retries] attempts were made and the last one rejected
    with the error thrown. *)
Theorem retry_throw_reasons fn (n : Z) (d : nat) rt :
  exists evs,
    trace (retry fn (Some n) (Some d) rt).2 = trace rt ++ evs /\
    forall e, (retry fn (Some n) (Some d) rt).1 = Throw e ->
      ((n <= 0)%Z /\ evs = [] /\ e = Undefined) \/
      (last evs.*2 = Some (EvAborted true) /\ e = aborted_error) \/
      ((1 <= n)%Z /\ invoked evs.*2 = seq 0 (Z.to_nat n) /\
       last evs.*2 = Some (EvSettle (Z.to_nat n - 1) (Rejected e))).
Proof.
  destruct (retry_run_of fn n d rt) as (evs & Htr & Hrun).
  exists evs. split; [exact Htr|]. intros e He.
  destruct (retry_run_throw _ _ _ _ _ _ _ Hrun e He)
    as [(Hr & -> & ->)|[Hab|(Hr & Hinv & Hlast)]].
  - left. split; [lia|]. auto.
  - right. left. exact Hab.
  - right. right. split; [lia|]. auto.
Qed.

End RetryOutcomes.

(* ================================================================== *)
(** * More on [sequence] and [parallel] *)
(* ================================================================== *)

Section SequenceOutcomes.

Context {T St : Type}.
Implicit Types (rt : @runtime T St) (tasks : list (@task T St)).

Lemma sequence_loop_all_fulfil tasks : forall i results rt,
  fired_at rt = None ->
  Forall always_fulfils tasks ->
  exists vs,
    (sequence_loop i tasks results rt).1 = Return (results ++ vs) /\
    length vs = length tasks.
Proof.
  induction tasks as [|f rest IH]; intros i results rt Hfired Hall.
  - exists []. simpl. rewrite app_nil_r. split; reflexivity.
  - inversion Hall as [|? ? Hf Hrest]; subst.
    simpl. unfold mbind, async_bind, signal_aborted, aborted. simpl.
    rewrite Hfired. unfold invoke. simpl.
    destruct (Hf (closure rt) (now rt)) as (t' & v & Hp).
    destruct (f (closure rt) (now rt)) as [p s'] eqn:Hfs. simpl in Hp. subst p. simpl.
    match goal with |- context [sequence_loop _ _ _ ?r] =>
      destruct (IH (S i) (results ++ [v]) r) as (vs & Hc & Hlen); [reflexivity|exact Hrest|]
    end.
    exists (v :: vs). rewrite Hc, <- app_assoc. simpl. split; [reflexivity|lia].
Qed.

(** Peels the first element off [pre] in [H : x :: l = pre ++ y :: post]. *)
Ltac uncons H pre :=
  destruct pre as [|? pre]; simpl in H;
  [ injection H; intros; subst; try discriminate
  | let H' := fresh in injection H as H' H; try (subst; discriminate) ].

Lemma sequence_run_calls t i n evs (c : completion (list T)) :
  sequence_run t i n evs c ->
  forall pre t2 j post, evs = pre ++ (t2, EvInvoke j) :: post ->
    (j = i /\ pre = [(t, EvAborted false)] /\ t2 = t) \/
    (exists j' pre' v, j = S j' /\ i <= j' /\
       pre = pre' ++ [(t2, EvSettle j' (Fulfilled v)); (t2, EvAborted false)]).
Proof.
  intros Hrun; induction Hrun; intros pre t2 j post Heq.
  - destruct pre; discriminate.
  - uncons Heq pre. destruct pre; discriminate.
  - uncons Heq pre. uncons Heq pre; [left; auto|]. destruct pre; discriminate.
  - uncons Heq pre. uncons Heq pre; [left; auto|].
    uncons Heq pre. destruct pre; discriminate.
  - uncons Heq pre. uncons Heq pre; [left; auto|].
    uncons Heq pre. subst. right.
    destruct (IHHrun _ _ _ _ eq_refl)
      as [(-> & -> & ->)|(j' & pre' & w & -> & Hle & ->)].
    + exists i, [(t, EvAborted false); (t, EvInvoke i)], v. repeat split; auto.
    + exists j', ((t, EvAborted false) :: (t, EvInvoke i)
                    :: (t', EvSettle i (Fulfilled v)) :: pre'), w.
      repeat split; auto. lia.
Qed.

Lemma sequence_run_hang t i n evs (c : completion (list T)) :
  sequence_run t i n evs c ->
  (c = Hang <-> exists j, last evs.*2 = Some (EvInvoke j)).
Proof.
  intros Hrun; induction Hrun; csimpl.
  - split; [discriminate|intros [j Hj]; discriminate].
  - split; [discriminate|intros [j Hj]; discriminate].
  - split; [eauto|reflexivity].
  - split; [discriminate|intros [j Hj]; discriminate].
  - destruct (evs.*2) as [|e0 l] eqn:E.
    + inversion Hrun; subst; try discriminate. csimpl.
      split; [discriminate|intros [j Hj]; discriminate].
    + rewrite !last_cons_cons. rewrite <- IHHrun.
      destruct c; csimpl; split; intros; try discriminate; reflexivity.
Qed.

(** X7. When the token never fires and every task's promise fulfils,
    whenever and in whatever state the task is called, [sequence] returns,
    with one value per task. *)
Theorem sequence_returns_when_all_fulfil tasks rt :
  fired_at rt = None ->
  Forall always_fulfils tasks ->
  exists vs, (sequence tasks rt).1 = Return vs /\ length vs = length tasks.
Proof.
  intros Hfired Hall. unfold sequence.
  destruct (sequence_loop_all_fulfil tasks 0 [] rt Hfired Hall) as (vs & Hc & Hlen).
  exists vs. split; assumption.
Qed.

(** X8. In [sequence] every call of a task comes right after a check, made
    at the same instant, that found the token not fired; and the task at
    position [j + 1] is called at the very instant the promise of the task
    at position [j] fulfilled, never after a rejection. *)
Theorem sequence_next_starts_when_previous_fulfils tasks rt :
  exists evs,
    trace (sequence tasks rt).2 = trace rt ++ evs /\
    checked_before_each_call evs /\
    forall pre t j post, evs = pre ++ (t, EvInvoke (S j)) :: post ->
      exists pre' v,
        pre = pre' ++ [(t, EvSettle j (Fulfilled v)); (t, EvAborted false)].
Proof.
  unfold sequence.
  destruct (sequence_loop_run tasks 0 [] rt) as (evs & c & _ & Htr & Hrun).
  exists evs. split; [exact Htr|]. split.
  - intros pre t j post Heq.
    destruct (sequence_run_calls _ _ _ _ _ Hrun _ _ _ _ Heq)
      as [(_ & -> & ->)|(j' & pre' & v & _ & _ & ->)].
    + exists []. reflexivity.
    + exists (pre' ++ [(t, EvSettle j' (Fulfilled v))]).
      rewrite <- app_assoc. reflexivity.
  - intros pre t j post Heq.
    destruct (sequence_run_calls _ _ _ _ _ Hrun _ _ _ _ Heq)
      as [(Hj & _)|(j' & pre' & v & Hj & _ & ->)]; [discriminate|].
    injection Hj as ->. exists pre', v. reflexivity.
Qed.

(** X9. [sequence] stays suspended for ever exactly when the last thing it
    did was to call a task: the promise of that task never settled, and no
    later task is called. *)
Theorem sequence_suspended_on_pending_task tasks rt :
  exists evs,
    trace (sequence tasks rt).2 = trace rt ++ evs /\
    ((sequence tasks rt).1 = Hang <-> exists j, last evs.*2 = Some (EvInvoke j)).
Proof.
  unfold sequence.
  destruct (sequence_loop_run tasks 0 [] rt) as (evs & c & Hc & Htr & Hrun).
  exists evs. split; [exact Htr|].
  rewrite Hc, extend_results_nil. eapply sequence_run_hang. exact Hrun.
Qed.

End SequenceOutcomes.

Section ParallelOutcomes.

Context {T St : Type}.
Implicit Types (rt : @runtime T St) (tasks : list (@task T St)).

Lemma all_fulfilled_inv {A} (ps : list (promise A)) t1 vs :
  all_fulfilled ps = Some (t1, vs) ->
  Forall2 is_fulfilled ps vs /\
  forall i t' o, settles_at ps i t' o -> t' <= t1.
Proof.
  revert t1 vs. induction ps as [|p ps IH]; intros t1 vs Hall.
  - injection Hall as <- <-. split; [constructor|].
    intros i t' o Hi. destruct i; discriminate.
  - simpl in Hall. destruct p as [[tp [v|e]]|]; try discriminate.
    destruct (all_fulfilled ps) as [[t2 ws]|] eqn:Hrest; [|discriminate].
    injection Hall as <- <-. destruct (IH _ _ eq_refl) as [HF Hmax]. split.
    + constructor; [eexists; reflexivity|exact HF].
    + intros [|i] t' o Hi.
      * injection Hi as <- _. lia.
      * specialize (Hmax i t' o Hi). lia.
Qed.

Lemma all_fulfilled_None {A} (ps : list (promise A)) :
  first_rejection ps = None ->
  (all_fulfilled ps = None <-> exists i, ps !! i = Some None).
Proof.
  induction ps as [|p ps IH]; intros Hnone.
  - simpl. split; [discriminate|intros [i Hi]; destruct i; discriminate].
  - simpl in *. destruct p as [[tp [v|e]]|].
    + specialize (IH Hnone). destruct (all_fulfilled ps) as [[t2 ws]|].
      * split; [discriminate|]. intros [[|i] Hi]; [discriminate|].
        assert (Hc : Some (t2, ws) = None) by (apply IH; eauto). discriminate.
      * split; [|reflexivity]. intros _. destruct (proj1 IH eq_refl) as [i Hi].
        exists (S i). exact Hi.
    + destruct (first_rejection ps) as [[? ?]|]; [destruct (_ <? _)|]; discriminate.
    + split; [|reflexivity]. intros _. exists 0. reflexivity.
Qed.

Lemma parallel_promise tasks rt :
  (parallel tasks rt).1 =
  Return (Promise_all (now rt)
            (if aborted rt
             then replicate (length tasks) (Promise_reject (now rt) aborted_error)
             else started tasks (closure rt) (now rt))).
Proof.
  unfold parallel, mbind, async_bind, clock.
  destruct (aborted rt) eqn:Hab.
  - destruct (parallel_map_fired tasks 0 rt Hab) as (Hps & Hnow & _).
    destruct (parallel_map 0 tasks rt) as [[qs| |] rt'] eqn:Hpm; try discriminate.
    simpl in *. injection Hps as ->. rewrite Hnow. reflexivity.
  - destruct (parallel_map_live tasks 0 rt Hab) as (Hps & Hnow & _).
    destruct (parallel_map 0 tasks rt) as [[qs| |] rt'] eqn:Hpm; try discriminate.
    simpl in *. injection Hps as ->. rewrite Hnow. reflexivity.
Qed.

(** X10. The promise of [parallel] fulfils only when every task was called
    and fulfilled: the array it fulfils with holds the tasks' values
    position by position, and it fulfils no earlier than the call and no
    earlier than any of the tasks. *)
Theorem parallel_fulfils_only_if_all tasks rt t vs :
  (parallel tasks rt).1 = Return (Some (t, Fulfilled vs)) ->
  let ps := started tasks (closure rt) (now rt) in
  Forall2 is_fulfilled ps vs /\
  now rt <= t /\
  forall i t' o, settles_at ps i t' o -> t' <= t.
Proof.
  intros Hpar ps. rewrite parallel_promise in Hpar. injection Hpar as Hpar.
  assert (Hps : Promise_all (now rt) ps = Some (t, Fulfilled vs)).
  { destruct (aborted rt); [|exact Hpar].
    destruct tasks as [|f rest]; [exact Hpar|].
    simpl length in Hpar. rewrite Promise_all_aborted in Hpar. discriminate. }
  unfold Promise_all in Hps.
  destruct (first_rejection ps) as [[? ?]|]; [discriminate|].
  destruct (all_fulfilled ps) as [[t1 ws]|] eqn:Hall; [|discriminate].
  injection Hps as <- <-. destruct (all_fulfilled_inv ps t1 ws Hall) as [HF Hmax].
  split; [exact HF|]. split; [lia|].
  intros i t' o Hi. specialize (Hmax i t' o Hi). lia.
Qed.

(** X11. With the token not fired at the call, the promise of [parallel]
    stays pending for ever exactly when no task promise rejects and some
    task promise never settles. *)
Theorem parallel_pending_forever tasks rt :
  aborted rt = false ->
  let ps := started tasks (closure rt) (now rt) in
  (parallel tasks rt).1 = Return None <->
  (forall i t e, ~ rejects_at ps i t e) /\ exists i, ps !! i = Some None.
Proof.
  intros Hab ps. rewrite parallel_promise, Hab. fold ps. unfold Promise_all. split.
  - intros Hnone.
    destruct (first_rejection ps) as [[? ?]|] eqn:Hfr; [discriminate|].
    destruct (all_fulfilled ps) as [[? ?]|] eqn:Hall; [discriminate|]. split.
    + intros i t e Hi. exact (first_rejection_None ps i t e Hfr Hi).
    + apply (all_fulfilled_None ps Hfr). exact Hall.
  - intros [Hnorej Hpend].
    destruct (first_rejection ps) as [[t e]|] eqn:Hfr.
    + destruct (first_rejection_earliest ps t e Hfr) as (i & Hi & _).
      destruct (Hnorej i t e Hi).
    + rewrite (proj2 (all_fulfilled_None ps Hfr) Hpend). reflexivity.
Qed.

End ParallelOutcomes.

(* ================================================================== *)
(** * More on the runner *)
(* ================================================================== *)

Section RunnerMore.

Context {T : Type}.
Implicit Types (h : @hook T) (fl : gset nat) (c : nat).

Lemma settle_returns opts c (o : settled T) h :
  (executeRun_settle opts c o h).1 =
  if cancelled c h then None
  else match o with Fulfilled v => Some v | Rejected _ => None end.
Proof.
  unfold executeRun_settle. destruct o; destruct (cancelled c h); reflexivity.
Qed.

Lemma start_setters opts h :
  exists evs,
    effects (executeRun_start opts h).2 = effects h ++ evs /\
    setters evs = [SetStatus Running; SetError None; SetResult None].
Proof.
  unfold executeRun_start, new_AbortController, when.
  destruct (dev opts); simpl; unfold abort_current, abort;
    destruct (abortControllerRef h); simpl;
    eexists; (split; [rewrite <- ?app_assoc; reflexivity|reflexivity]).
Qed.

Lemma cells_eq h1 h2 :
  cells h1 = cells h2 ->
  status h1 = status h2 /\ result h1 = result h2 /\ error h1 = error h2 /\
  abortControllerRef h1 = abortControllerRef h2 /\
  isMountedRef h1 = isMountedRef h2 /\ controllers h1 = controllers h2.
Proof. unfold cells. intros H. injection H as -> -> -> -> -> ->. repeat split. Qed.

Lemma abort_current_controllers h1 h2 :
  abortControllerRef h1 = abortControllerRef h2 ->
  controllers h1 = controllers h2 ->
  controllers (abort_current h1) = controllers (abort_current h2).
Proof.
  unfold abort_current, abort. intros -> Hcs.
  destruct (abortControllerRef h2); simpl; rewrite Hcs; reflexivity.
Qed.

(** X12. In every state a hook instance can reach, at most one run in
    flight has a token that is not fired. *)
Theorem at_most_one_live_run opts h fl c1 c2 :
  reachable opts h fl ->
  c1 ∈ fl -> c2 ∈ fl ->
  signal_of c1 h = false -> signal_of c2 h = false ->
  c1 = c2.
Proof.
  intros Hreach H1 H2 Hs1 Hs2.
  pose proof (reachable_inv opts h fl Hreach) as (_ & _ & Hcur & _).
  pose proof (Hcur c1 H1 Hs1) as E1. pose proof (Hcur c2 H2 Hs2) as E2.
  rewrite E1 in E2. injection E2 as ->. reflexivity.
Qed.

(** X13. Starting a run supersedes all others: the new run gets a
    controller that no run in flight owns, its token is not fired and the
    ref points at it, the status is ['running'], and the token of every run
    that was in flight is fired. *)
Theorem start_supersedes opts h fl :
  reachable opts h fl ->
  let r := executeRun_start opts h in
  (r.1 ∉ fl) /\
  signal_of r.1 r.2 = false /\
  abortControllerRef r.2 = Some r.1 /\
  status r.2 = Running /\
  forall c, c ∈ fl -> signal_of c r.2 = true.
Proof.
  intros Hreach r. subst r.
  pose proof (reachable_inv opts h fl Hreach) as Hinv.
  destruct (start_fields opts h) as (Hc0 & _ & Href & _ & Hst & _).
  rewrite Hc0. split; [|split; [|split; [|split]]].
  - intros Hin. destruct Hinv as (_ & Hlen & _). specialize (Hlen _ Hin). lia.
  - rewrite signal_of_start. destruct (decide _); [reflexivity|congruence].
  - exact Href.
  - exact Hst.
  - intros c Hc. rewrite signal_of_start.
    destruct (decide (c = length (controllers h))) as [->|_].
    + destruct Hinv as (_ & Hlen & _). specialize (Hlen _ Hc). lia.
    + apply (inflight_aborted h fl c Hinv Hc).
Qed.

(** X14. [cancel()], the unmount clean-up and the clean-up of the auto-run
    effect each leave every run in flight with a fired token; the first two
    also empty the ref. *)
Theorem cancel_fires_all_in_flight opts h fl c :
  reachable opts h fl ->
  c ∈ fl ->
  signal_of c (cancel h) = true /\
  signal_of c (unmount h) = true /\
  signal_of c (deps_cleanup h) = true /\
  abortControllerRef (cancel h) = None /\
  abortControllerRef (unmount h) = None.
Proof.
  intros Hreach Hc.
  pose proof (reachable_inv opts h fl Hreach) as Hinv.
  pose proof (inflight_aborted h fl c Hinv Hc) as Hfired.
  destruct (cancel_fields h) as (Hcs1 & Hr1 & _).
  destruct (unmount_fields h) as (Hcs2 & Hr2 & _).
  rewrite (signal_of_controllers c (abort_current h) (cancel h) Hcs1).
  rewrite (signal_of_controllers c (abort_current h) (unmount h) Hcs2).
  unfold deps_cleanup. auto.
Qed.


(** X16. The options never reach the state.  Two hook instances with equal
    cells, run with any two option records, start a run with the same
    controller and settle a run with the same returned value; they end with
    equal cells and they make the same calls of the state setters in the
    same order.  Only the calls of the callbacks and the console lines can
    differ. *)
Theorem options_do_not_affect_state opts1 opts2 c (o : settled T) h1 h2 :
  cells h1 = cells h2 ->
  ((executeRun_start opts1 h1).1 = (executeRun_start opts2 h2).1 /\
   cells (executeRun_start opts1 h1).2 = cells (executeRun_start opts2 h2).2 /\
   exists evs1 evs2,
     effects (executeRun_start opts1 h1).2 = effects h1 ++ evs1 /\
     effects (executeRun_start opts2 h2).2 = effects h2 ++ evs2 /\
     setters evs1 = setters evs2) /\
  ((executeRun_settle opts1 c o h1).1 = (executeRun_settle opts2 c o h2).1 /\
   cells (executeRun_settle opts1 c o h1).2 = cells (executeRun_settle opts2 c o h2).2 /\
   exists evs1 evs2,
     effects (executeRun_settle opts1 c o h1).2 = effects h1 ++ evs1 /\
     effects (executeRun_settle opts2 c o h2).2 = effects h2 ++ evs2 /\
     setters evs1 = setters evs2).
Proof.
  intros Hcells.
  destruct (cells_eq h1 h2 Hcells) as (Hst & Hres & Herr & Href & Hm & Hcs).
  assert (Hcan : cancelled c h1 = cancelled c h2).
  { unfold cancelled, signal_of. rewrite Hcs, Hm. reflexivity. }
  split.
  - destruct (start_fields opts1 h1) as (A1 & A2 & A3 & A4 & A5 & A6 & A7).
    destruct (start_fields opts2 h2) as (B1 & B2 & B3 & B4 & B5 & B6 & B7).
    split; [rewrite A1, B1, Hcs; reflexivity|]. split.
    + unfold cells. rewrite A2, A3, A4, A5, A6, A7, B2, B3, B4, B5, B6, B7.
      rewrite (abort_current_controllers h1 h2 Href Hcs), Hcs, Hm. reflexivity.
    + destruct (start_setters opts1 h1) as (evs1 & E1 & S1).
      destruct (start_setters opts2 h2) as (evs2 & E2 & S2).
      exists evs1, evs2. rewrite S1, S2. auto.
  - destruct (settle_fields opts1 c o h1) as (A1 & A2 & A3 & A4 & A5 & A6).
    destruct (settle_fields opts2 c o h2) as (B1 & B2 & B3 & B4 & B5 & B6).
    split; [rewrite !settle_returns, Hcan; reflexivity|]. split.
    + unfold cells. rewrite A1, A2, A3, A4, A5, A6, B1, B2, B3, B4, B5, B6.
      rewrite Hcan, ?Hres, ?Herr, ?Href, ?Hm, ?Hcs. reflexivity.
    + destruct (settle_effects opts1 c o h1) as (evs1 & E1 & S1).
      destruct (settle_effects opts2 c o h2) as (evs2 & E2 & S2).
      exists evs1, evs2. split; [exact E1|]. split; [exact E2|].
      rewrite S1, S2, Hcan.
      destruct (cancelled c h2); destruct o;
        destruct (dev opts1); destruct (dev opts2);
        destruct (onError opts1); destruct (onError opts2);
        destruct (onFinally opts1); destruct (onFinally opts2); reflexivity.
Qed.

(** X17. The [finally] block empties the ref only for the current run.
    When a run other than the current one settles, the ref still points at
    the current run, so a [cancel()] that follows fires the current run's
    token.  When the current run itself settles, the ref is emptied, and a
    [cancel()] that follows fires no token at all. *)
Theorem finally_clears_only_current opts h fl cur c (o : settled T) :
  reachable opts h fl ->
  abortControllerRef h = Some cur ->
  let h' := (executeRun_settle opts c o h).2 in
  (c <> cur ->
     abortControllerRef h' = Some cur /\ signal_of cur (cancel h') = true) /\
  (c = cur ->
     abortControllerRef h' = None /\
     forall c', signal_of c' (cancel h') = signal_of c' h).
Proof.
  intros Hreach Href h'. subst h'.
  pose proof (reachable_inv opts h fl Hreach) as (Hvalid & _).
  specialize (Hvalid cur Href).
  destruct (settle_fields opts c o h) as (Hcs & _ & Href' & _).
  rewrite Href in Href'. split.
  - intros Hne.
    destruct (decide (Some cur = Some c)) as [Heq|_]; [congruence|].
    split; [exact Href'|].
    destruct (cancel_fields (executeRun_settle opts c o h).2) as (Hcs' & _).
    rewrite (signal_of_controllers cur _ _ Hcs'), signal_of_abort_current.
    destruct (decide _) as [|Hn]; [reflexivity|].
    exfalso. apply Hn. rewrite Hcs. auto.
  - intros ->.
    destruct (decide (Some cur = Some cur)) as [_|Hn]; [|congruence].
    split; [exact Href'|]. intros c'.
    destruct (cancel_fields (executeRun_settle opts cur o h).2) as (Hcs' & _).
    rewrite (signal_of_controllers c' _ _ Hcs'), signal_of_abort_current.
    destruct (decide _) as [[Habs _]|_]; [congruence|].
    apply signal_of_controllers. exact Hcs.
Qed.

(** X18. A token is one-shot: once the token of a run is fired it stays
    fired through every later operation of the hook. *)
Theorem token_stays_fired opts h fl h' fl' c :
  rtc (flow_step opts) (h, fl) (h', fl') ->
  signal_of c h = true ->
  signal_of c h' = true.
Proof.
  intros Hsteps Hs. exact (flow_steps_signal_mono opts (h, fl) (h', fl') c Hsteps Hs).
Qed.

(** X19. While the component is unmounted, a run that settles records
    nothing, whatever its outcome and whether or not its token is fired:
    the only setter called is [setStatus("cancelled")], [result] and [error]
    keep their values, [onError] is not called, [onFinally] is (when
    supplied), and the promise of [run()] resolves with [undefined]. *)
Theorem settle_while_unmounted opts c (o : settled T) h :
  isMountedRef h = false ->
  let r := executeRun_settle opts c o h in
  r.1 = None /\
  status r.2 = Cancelled /\ result r.2 = result h /\ error r.2 = error h /\
  exists evs,
    effects r.2 = effects h ++ evs /\
    setters evs = [SetStatus Cancelled] /\
    callbacks evs = (if onFinally opts then [OnFinally] else []).
Proof.
  intros Hm r. subst r.
  assert (Hcan : cancelled c h = true).
  { unfold cancelled. rewrite Hm. apply orb_true_r. }
  destruct (settle_fields opts c o h) as (_ & _ & _ & Hst & Hres & Herr).
  rewrite settle_returns, Hst, Hres, Herr, Hcan. repeat split.
  destruct (settle_effects opts c o h) as (evs & Heff & Hevs).
  exists evs. split; [exact Heff|]. rewrite Hevs, Hcan.
  destruct o; destruct (dev opts); destruct (onFinally opts); split; reflexivity.
Qed.

End RunnerMore.

Section RunnerIdle.

Context {T : Type}.
Implicit Types (h : @hook T) (fl : gset nat).

Lemma flow_step_untouched opts (x y : @hook T * gset nat) :
  flow_step opts x y -> untouched x -> untouched y.
Proof.
  intros Hstep; destruct Hstep as [h fl|h fl c o Hc|h fl|h fl|h fl|h fl];
    unfold untouched; cbn [fst snd]; intros Hx Hidle.
  - destruct (start_fields opts h) as (_ & _ & _ & _ & Hst & _). congruence.
  - destruct (settle_fields opts c o h) as (_ & _ & _ & Hst & _).
    rewrite Hst in Hidle. destruct (cancelled c h); [discriminate|].
    destruct o; discriminate.
  - destruct (cancel_fields h) as (_ & _ & _ & Hst & _). congruence.
  - exact (Hx Hidle).
  - destruct (unmount_fields h) as (Hcs & _ & _ & Hst & Hres & Herr).
    rewrite Hst in Hidle. destruct (Hx Hidle) as (Hc0 & Hfl & Hr & He & Heff).
    rewrite Hcs, Hres, Herr. repeat split; auto.
    + unfold abort_current, abort. destruct (abortControllerRef h); simpl;
        rewrite Hc0; reflexivity.
    + unfold unmount, abort_current, abort. simpl.
      destruct (abortControllerRef h); exact Heff.
  - destruct (deps_cleanup_fields h) as (_ & _ & Hst & Hres & Herr).
    rewrite Hst in Hidle. destruct (Hx Hidle) as (Hc0 & Hfl & Hr & He & Heff).
    rewrite Hres, Herr. repeat split; auto.
    + unfold deps_cleanup, abort_current, abort. destruct (abortControllerRef h); simpl;
        rewrite Hc0; reflexivity.
    + unfold deps_cleanup, abort_current, abort.
      destruct (abortControllerRef h); exact Heff.
Qed.

(** X22. No operation sets the status back to ['idle'].  In a state a hook
    instance can reach, the status is ['idle'] only if no run was ever
    started and [cancel()] was never called: no controller exists, no run
    is in flight, result and error are empty, and no setter, callback or
    console call has been made. *)
Theorem idle_only_before_first_run opts h fl :
  reachable opts h fl ->
  status h = Idle ->
  controllers h = [] /\ fl = ∅ /\ result h = None /\ error h = None /\
  effects h = [].
Proof.
  intros Hreach.
  assert (Hgen : forall x y : @hook T * gset nat,
            rtc (flow_step opts) x y -> untouched x -> untouched y).
  { induction 1 as [|x y z Hstep _ IH]; [auto|].
    intros Hx. apply IH. eapply flow_step_untouched; eassumption. }
  apply (Hgen _ _ Hreach). unfold untouched. cbn [fst snd]. intros _. repeat split.
Qed.

End RunnerIdle.

(* ================================================================== *)
(** * The inspector *)
(* ================================================================== *)

Section InspectorProofs.

Implicit Types (ins : inspector) (calls : list inspector_call).

Lemma inspector_step_wf ins c : inspector_wf ins -> inspector_wf (inspector_step ins c).
Proof.
  unfold inspector_wf. destruct c as [s|]; simpl.
  - rewrite length_alter. auto.
  - rewrite length_app. simpl. lia.
Qed.

Lemma inspector_run_wf calls : forall ins,
  inspector_wf ins -> inspector_wf (inspector_run calls ins).
Proof.
  induction calls as [|c rest IH]; intros ins Hwf; [exact Hwf|].
  apply IH. apply inspector_step_wf. exact Hwf.
Qed.

Lemma buffer_push s ins :
  inspector_wf ins -> buffer (inspector_push s ins) = push_shift s (buffer ins).
Proof.
  unfold inspector_wf, buffer. intros Hwf. simpl.
  rewrite list_lookup_alter_eq.
  destruct (lookup_lt_is_Some_2 _ _ Hwf) as [a ->]. reflexivity.
Qed.

Lemma buffer_list ins :
  inspector_wf ins -> buffer (inspector_list ins).2 = buffer ins.
Proof.
  unfold inspector_wf, buffer. intros Hwf. simpl.
  rewrite lookup_app_l by exact Hwf. reflexivity.
Qed.

Lemma push_shift_drop s (a : list string) :
  length a <= 100 ->
  push_shift s a = drop (length (a ++ [s]) - 100) (a ++ [s]).
Proof.
  intros Hlen. unfold push_shift.
  destruct (Nat.ltb_spec 100 (length (a ++ [s]))) as [Hlt|Hle].
  - rewrite length_app in *. simpl in *.
    replace (length a + 1 - 100) with 1 by lia.
    destruct (a ++ [s]); reflexivity.
  - replace (length (a ++ [s]) - 100) with 0 by lia. reflexivity.
Qed.

Lemma inspector_run_buffer calls : forall ins,
  inspector_wf ins ->
  length (buffer ins) <= 100 ->
  buffer (inspector_run calls ins) =
  drop (length (buffer ins ++ pushed calls) - 100) (buffer ins ++ pushed calls).
Proof.
  induction calls as [|c rest IH]; intros ins Hwf Hlen.
  - simpl. rewrite app_nil_r. replace (length (buffer ins) - 100) with 0 by lia.
    reflexivity.
  - destruct c as [s|].
    + change (inspector_run (CallPush s :: rest) ins)
        with (inspector_run rest (inspector_push s ins)).
      change (pushed (CallPush s :: rest)) with (s :: pushed rest).
      assert (Hb : buffer (inspector_push s ins)
                   = drop (length (buffer ins ++ [s]) - 100) (buffer ins ++ [s])).
      { rewrite (buffer_push s ins Hwf). apply push_shift_drop. exact Hlen. }
      rewrite IH.
      * rewrite Hb.
        set (L := buffer ins ++ [s]). set (P := pushed rest).
        replace (buffer ins ++ s :: P) with (L ++ P)
          by (unfold L; rewrite <- app_assoc; reflexivity).
        rewrite <- (drop_app_le L P) by lia.
        rewrite drop_drop. f_equal.
        rewrite length_drop, !length_app. lia.
      * apply (inspector_step_wf ins (CallPush s) Hwf).
      * rewrite Hb, length_drop, length_app. simpl. lia.
    + change (inspector_run (CallList :: rest) ins)
        with (inspector_run rest (inspector_list ins).2).
      change (pushed (CallList :: rest)) with (pushed rest).
      rewrite IH.
      * rewrite (buffer_list ins Hwf). reflexivity.
      * apply (inspector_step_wf ins CallList Hwf).
      * rewrite (buffer_list ins Hwf). exact Hlen.
Qed.

Lemma inspector_run_keeps calls : forall ins a (x : list string),
  ref_current ins <> a ->
  arrays ins !! a = Some x ->
  ref_current (inspector_run calls ins) = ref_current ins /\
  arrays (inspector_run calls ins) !! a = Some x.
Proof.
  induction calls as [|c rest IH]; intros ins a x Hne Ha; [auto|].
  simpl. destruct c as [s|].
  - destruct (IH (inspector_push s ins) a x) as [Hr Hl]; auto.
    simpl. rewrite list_lookup_alter_ne by exact Hne. exact Ha.
  - destruct (IH (inspector_list ins).2 a x) as [Hr Hl]; auto.
    simpl. rewrite lookup_app_l; [exact Ha|]. eapply lookup_lt_Some. exact Ha.
Qed.

(** X20. Whatever calls of [push] and [list] were made since the hook was
    created, the buffer holds the last 100 strings pushed, oldest first,
    and all of them when fewer were pushed; so it never holds more than 100
    and the string pushed last is never the one dropped. *)
Theorem inspector_keeps_last_100 calls :
  let ins := inspector_run calls useAsyncInspector_init in
  buffer ins = drop (length (pushed calls) - 100) (pushed calls) /\
  length (buffer ins) = Nat.min 100 (length (pushed calls)) /\
  last (buffer ins) = last (pushed calls).
Proof.
  intros ins. subst ins.
  assert (Hbuf : buffer (inspector_run calls useAsyncInspector_init)
                 = drop (length (pushed calls) - 100) (pushed calls)).
  { rewrite inspector_run_buffer; [reflexivity|unfold inspector_wf; simpl; lia|simpl; lia]. }
  rewrite Hbuf. split; [reflexivity|]. split.
  - rewrite length_drop. lia.
  - destruct (pushed calls) as [|s l] eqn:E using rev_ind; [reflexivity|].
    clear IHl. rewrite length_app. simpl.
    rewrite drop_app_le by lia. rewrite !last_snoc. reflexivity.
Qed.

(** X21. [list()] hands out a copy: the array it returned keeps the
    contents the buffer had at the time of the call, whatever is pushed or
    listed afterwards. *)
Theorem inspector_list_is_a_snapshot calls later :
  let ins := inspector_run calls useAsyncInspector_init in
  let r := inspector_list ins in
  arrays r.2 !! r.1 = Some (buffer ins) /\
  arrays (inspector_run later r.2) !! r.1 = Some (buffer ins).
Proof.
  intros ins r.
  assert (Hwf : inspector_wf ins).
  { apply inspector_run_wf. unfold inspector_wf. simpl. lia. }
  assert (Hsnap : arrays r.2 !! r.1 = Some (buffer ins)).
  { subst r. simpl. apply list_lookup_middle. reflexivity. }
  split; [exact Hsnap|].
  apply inspector_run_keeps; [|exact Hsnap].
  subst r. simpl. unfold inspector_wf in Hwf. lia.
Qed.

End InspectorProofs.

(* ================================================================== *)
(** * More worked inputs *)
(* ================================================================== *)

Example race_ignores_fired_token :
  let r := race [resolves 5 1; rejects 3 2] (fresh (Some 0)) in
  r.1 = Return (Promise_reject 3 (Value 2)) /\ invoked (trace r.2).*2 = [0; 1].
Proof. vm_compute. repeat split. Qed.

Example retry_aborted_between_attempts :
  let r := retry (failsThenSucceeds 5 1) (Some 3%Z) (Some 10) (fresh (Some 5)) in
  r.1 = Throw aborted_error /\ invoked (trace r.2).*2 = [0].
Proof. vm_compute. repeat split. Qed.

Example inspector_after_102_pushes :
  let calls := (fun n => CallPush (String (Ascii.ascii_of_nat n) EmptyString)) <$> seq 0 102 in
  let ins := inspector_run calls useAsyncInspector_init in
  length (buffer ins) = 100 /\
  head (buffer ins) = Some (String (Ascii.ascii_of_nat 2) EmptyString).
Proof. vm_compute. repeat split. Qed.

Lemma resolves_always_fulfils after v : always_fulfils (resolves after v).
Proof. intros s t. eexists _, _. reflexivity. Qed.

Lemma sequence_returns_when_all_fulfil_witness :
  fired_at (fresh None) = None /\
  Forall always_fulfils [resolves 5 1; resolves 3 2] /\
  exists vs, (sequence [resolves 5 1; resolves 3 2] (fresh None)).1 = Return vs /\
             length vs = 2.
Proof.
  assert (Hall : Forall always_fulfils [resolves 5 1; resolves 3 2])
    by (repeat constructor; apply resolves_always_fulfils).
  split; [reflexivity|]. split; [exact Hall|].
  exact (sequence_returns_when_all_fulfil [resolves 5 1; resolves 3 2] (fresh None)
           eq_refl Hall).
Defined.

Lemma parallel_fulfils_only_if_all_witness :
  (parallel [resolves 5 1; resolves 3 2] (fresh None)).1
  = Return (Some (5, Fulfilled [1; 2])) /\
  Forall2 is_fulfilled (started [resolves 5 1; resolves 3 2] 0 0) [1; 2].
Proof.
  split; [reflexivity|].
  exact (proj1 (parallel_fulfils_only_if_all [resolves 5 1; resolves 3 2] (fresh None)
                  5 [1; 2] eq_refl)).
Defined.

Lemma parallel_pending_forever_witness :
  aborted (fresh None) = false /\
  (parallel [neverResolves; resolves 3 2] (fresh None)).1 = Return None.
Proof.
  split; [reflexivity|].
  apply (parallel_pending_forever [neverResolves; resolves 3 2] (fresh None) eq_refl).
  split.
  - intros [|[|[|i]]] t e Hi; discriminate.
  - exists 0. reflexivity.
Defined.

Lemma at_most_one_live_run_witness :
  reachable all_callbacks running_hook ({[0]} ∪ ∅) /\
  signal_of 0 running_hook = false /\ 0 = 0.
Proof.
  split; [exact running_hook_reachable|]. split; [reflexivity|].
  exact (at_most_one_live_run all_callbacks running_hook ({[0]} ∪ ∅) 0 0
           running_hook_reachable ltac:(set_solver) ltac:(set_solver) eq_refl eq_refl).
Defined.

Lemma start_supersedes_witness :
  reachable all_callbacks running_hook ({[0]} ∪ ∅) /\
  signal_of 0 (executeRun_start all_callbacks running_hook).2 = true /\
  signal_of 1 (executeRun_start all_callbacks running_hook).2 = false.
Proof.
  split; [exact running_hook_reachable|].
  destruct (start_supersedes all_callbacks running_hook ({[0]} ∪ ∅) running_hook_reachable)
    as (_ & Hnew & _ & _ & Hold).
  split; [apply Hold; set_solver|exact Hnew].
Defined.

Lemma cancel_fires_all_in_flight_witness :
  reachable all_callbacks running_hook ({[0]} ∪ ∅) /\
  signal_of 0 (cancel running_hook) = true /\
  signal_of 0 (unmount running_hook) = true.
Proof.
  split; [exact running_hook_reachable|].
  destruct (cancel_fires_all_in_flight all_callbacks running_hook ({[0]} ∪ ∅) 0
              running_hook_reachable ltac:(set_solver)) as (H1 & H2 & _).
  split; assumption.
Defined.

Lemma options_do_not_affect_state_witness :
  cells running_hook = cells running_hook /\
  cells (executeRun_settle all_callbacks 0 (Rejected (Value 1)) running_hook).2
  = cells (executeRun_settle (mkOptions false false true) 0 (Rejected (Value 1))
             running_hook).2.
Proof.
  split; [reflexivity|].
  destruct (options_do_not_affect_state all_callbacks (mkOptions false false true) 0
              (Rejected (Value 1)) running_hook running_hook eq_refl)
    as (_ & _ & Hcells & _).
  exact Hcells.
Defined.

Lemma finally_clears_only_current_witness :
  reachable all_callbacks (executeRun_start all_callbacks running_hook).2
    ({[1]} ∪ ({[0]} ∪ ∅)) /\
  abortControllerRef (executeRun_start all_callbacks running_hook).2 = Some 1 /\
  abortControllerRef
    (executeRun_settle all_callbacks 0 (Fulfilled 7)
       (executeRun_start all_callbacks running_hook).2).2 = Some 1.
Proof.
  assert (Hreach : reachable all_callbacks (executeRun_start all_callbacks running_hook).2
                     ({[1]} ∪ ({[0]} ∪ ∅))).
  { eapply rtc_r; [exact running_hook_reachable|].
    exact (step_run all_callbacks running_hook ({[0]} ∪ ∅)). }
  split; [exact Hreach|]. split; [reflexivity|].
  destruct (finally_clears_only_current all_callbacks _ _ 1 0 (Fulfilled 7) Hreach eq_refl)
    as (Hother & _).
  apply Hother. discriminate.
Defined.

Lemma token_stays_fired_witness :
  signal_of 0 (cancel running_hook) = true /\
  signal_of 0 (executeRun_start all_callbacks (cancel running_hook)).2 = true.
Proof.
  split; [reflexivity|].
  exact (token_stays_fired all_callbacks (cancel running_hook) ({[0]} ∪ ∅) _ _ 0
           (rtc_once _ _ (step_run all_callbacks (cancel running_hook) ({[0]} ∪ ∅)))
           eq_refl).
Defined.

Lemma settle_while_unmounted_witness :
  isMountedRef run_after_unmount = false /\
  status (executeRun_settle all_callbacks 0 (Fulfilled 7) run_after_unmount).2 = Cancelled /\
  result (executeRun_settle all_callbacks 0 (Fulfilled 7) run_after_unmount).2 = None.
Proof.
  split; [reflexivity|].
  destruct (settle_while_unmounted all_callbacks 0 (Fulfilled 7) run_after_unmount eq_refl)
    as (_ & Hst & Hres & _).
  split; [exact Hst|]. rewrite Hres. reflexivity.
Defined.

Lemma idle_only_before_first_run_witness :
  reachable all_callbacks (unmount (@useAsyncFlow_init nat)) ∅ /\
  status (unmount (@useAsyncFlow_init nat)) = Idle /\
  effects (unmount (@useAsyncFlow_init nat)) = [].
Proof.
  assert (Hreach : reachable all_callbacks (unmount (@useAsyncFlow_init nat)) ∅)
    by (apply rtc_once; exact (step_unmount all_callbacks useAsyncFlow_init ∅)).
  split; [exact Hreach|]. split; [reflexivity|].
  destruct (idle_only_before_first_run all_callbacks _ _ Hreach eq_refl)
    as (_ & _ & _ & _ & Heff).
  exact Heff.
Defined.
